(** * gcages.parallelisation: the invariant guard and the parallel runner

    A shallow embedding of [src/gcages/src/gcages/parallelisation.py]:

    - [assert_only_working_on_variable_unit_variations], the guard that
      a table only varies along [variable] and [unit];
    - [run_parallel], which maps a callable over an iterable, serially
      when [n_processes == 1] and through a process pool otherwise.

    Python exceptions are values of [exn]; a computation either returns
    or raises ([outcome]).  Everything the runner does to the outside
    (logging, progress bars, the process pool) is recorded, in order, in
    an event trace threaded through a small state-and-exception monad. *)

From stdpp Require Import base list strings gmap pretty.

Open Scope Z_scope.

(** ** Exceptions and outcomes *)

Inductive exn : Type :=
  | ValueError (msg : string)
  | TypeError (msg : string)
  | AssertionError (msg : string)
  | RuntimeError (msg : string).

Inductive outcome (A : Type) : Type :=
  | Return (a : A)
  | Raise (e : exn).
Arguments Return {A} a.
Arguments Raise {A} e.

Definition is_ValueError (e : exn) : bool :=
  match e with ValueError _ => true | _ => false end.

Definition returns {A} (o : outcome A) : Prop := ∃ a, o = Return a.
Definition raises {A} (o : outcome A) : Prop := ∃ e, o = Raise e.

(** ** The state-and-exception monad

    [M W A] is a computation over a world [W] that returns an [A] or
    raises; the world reached is kept in both cases, as in Python, where
    the effects performed before a [raise] are not undone. *)

Definition M (W A : Type) : Type := W → W * outcome A.

Definition ret {W A} (a : A) : M W A := λ w, (w, Return a).
Definition raise {W A} (e : exn) : M W A := λ w, (w, Raise e).
Definition bind {W A B} (m : M W A) (k : A → M W B) : M W B :=
  λ w, match m w with
       | (w', Return a) => k a w'
       | (w', Raise e) => (w', Raise e)
       end.
Definition lift {W A} (o : outcome A) : M W A := λ w, (w, o).

Declare Scope py_scope.
Delimit Scope py_scope with py.
Notation "x <- c1 ;; c2" := (bind c1 (λ x, c2))
  (at level 100, c1 at next level, c2 at level 200, right associativity) : py_scope.
Notation "c1 ;; c2" := (bind c1 (λ _, c2))
  (at level 100, c2 at level 200, right associativity) : py_scope.
Open Scope py_scope.

(** [try: m except <sel>: h] *)
Definition try_except {W A} (m : M W A) (sel : exn → bool) (h : exn → M W A) : M W A :=
  λ w, match m w with
       | (w', Raise e) => if sel e then h e w' else (w', Raise e)
       | r => r
       end.

(** ** Multiprocessing contexts and the host platform *)

Inductive BaseContext : Type := ForkContext | SpawnContext | ForkServerContext.

#[global] Instance BaseContext_eq_dec : EqDecision BaseContext.
Proof. solve_decision. Defined.

(** ** Events and the world *)

(** [U] are the work items, [T] the results, [A] and [K] the extra
    positional and keyword arguments.  A callable is a function
    [U → A → K → outcome T]: what it returns or raises depends on its
    arguments only, in the calling process and in a worker alike. *)

Section Runner.
Context {U T A K : Type}.

Inductive event : Type :=
  | LogDebug (msg : string)
  | LogInfo (msg : string)
  | Tick (desc : string)
  | Call (inv : U)
  | GetContext (method : option string)
  | PoolCreate (max_workers : Z) (ctx : BaseContext)
  | Submit (inv : U)
  | PoolShutdown.

(** The world of a call: what the host offers ([fork_available],
    [default_context]), the order in which the pool's tasks will
    complete ([completion], chosen by the operating system), and the
    chronological trace of what the runner has done so far. *)
Record world : Type := World {
  fork_available : bool;
  default_context : BaseContext;
  completion : list nat;
  trace : list event
}.

(** The world after the events [es] have happened. *)
Definition record (es : list event) (w : world) : world :=
  World (fork_available w) (default_context w) (completion w) (trace w ++ es).

Definition emit (e : event) : M world unit := λ w, (record [e] w, Return tt).

(** What a trace says about the callable: the items it was called on in
    the calling process, and the items handed to the pool. *)
Definition calls (tr : list event) : list U :=
  omap (λ e, match e with Call inv => Some inv | _ => None end) tr.
Definition submitted (tr : list event) : list U :=
  omap (λ e, match e with Submit inv => Some inv | _ => None end) tr.

(** Events of the pool's life. *)
Definition is_pool_event (e : event) : bool :=
  match e with PoolCreate _ _ | PoolShutdown => true | _ => false end.

(** Modelled from the spec: [loguru.logger] is a library, not part of
    the repository; a log call only appends to the trace. *)
Definition logger_debug (msg : string) : M world unit := emit (LogDebug msg).
Definition logger_info (msg : string) : M world unit := emit (LogInfo msg).

(** Modelled from the spec: [tqdm.auto.tqdm] is a library, not part of
    the repository.  [[body x for x in tqdm(xs, desc=desc)]]: the items come
    in the order of [xs]; the progress bar advances by one after the body
    of an item has finished; an exception in the body ends the
    comprehension there. *)
Fixpoint for_tqdm {X Y} (body : X → M world Y) (desc : string) (xs : list X)
  : M world (list Y) :=
  match xs with
  | [] => ret []
  | x :: xs' =>
      y <- body x ;;
      emit (Tick desc) ;;
      ys <- for_tqdm body desc xs' ;;
      ret (y :: ys)
  end.

(** Modelled from the spec: [multiprocessing.get_context] belongs to
    Python's standard library, not to the repository.  Without a method
    it hands out the platform default and cannot fail (the spec's
    platform-default context); with a method the host does not have, it
    raises [ValueError], which is what line 119 catches. *)
Definition get_context (method : option string) : M world BaseContext :=
  emit (GetContext method) ;;
  λ w, match method with
       | None => (w, Return (default_context w))
       | Some m =>
           if String.eqb m "fork" then
             if fork_available w then (w, Return ForkContext)
             else (w, Raise (ValueError "cannot find context for 'fork'"))
           else if String.eqb m "spawn" then (w, Return SpawnContext)
           else if String.eqb m "forkserver" then
             if fork_available w then (w, Return ForkServerContext)
             else (w, Raise (ValueError "cannot find context for 'forkserver'"))
           else (w, Raise (ValueError ("cannot find context for '" +:+ m +:+ "'")))
       end.

(** *** The process pool *)

Record ProcessPoolExecutor : Type := Pool {
  max_workers : Z;
  pool_context : BaseContext
}.

(** A future holds the outcome of its task: what the callable returned
    or raised in the worker process. *)
Record Future : Type := Fut { fut_outcome : outcome T }.

(** Modelled from the spec: [concurrent.futures.ProcessPoolExecutor]
    belongs to Python's standard library, not to the repository.  As its
    documentation has it, the constructor raises [ValueError] when
    [max_workers] is not positive; otherwise the pool, sized to
    [max_workers], exists from here on.  Ceilings a host may put on the
    number of workers, and hosts that run out of processes, are outside
    the model. *)
Definition ProcessPoolExecutor_init (n : Z) (ctx : BaseContext)
  : M world ProcessPoolExecutor :=
  if n <=? 0 then raise (ValueError "max_workers must be greater than 0")
  else emit (PoolCreate n ctx) ;; ret (Pool n ctx).

(** [with mk as executor: body] (lines 123-145): when the constructor
    raises there is no pool and the body is not entered; otherwise the
    pool's [__exit__] shuts it down (waiting for the workers) on every
    way out of the body, and lets an exception of the body through. *)
Definition with_executor {B} (mk : M world ProcessPoolExecutor)
    (body : ProcessPoolExecutor → M world B) : M world B :=
  λ w, match mk w with
       | (w1, Raise e) => (w1, Raise e)
       | (w1, Return executor) =>
           match body executor w1 with
           | (w2, r) => (fst (emit PoolShutdown w2), r)
           end
       end.

(** [executor.submit(fn, inv, *args, **kwargs)]: the task is queued; a
    worker will run [fn] on it, and the future will hold the outcome. *)
Definition submit (executor : ProcessPoolExecutor)
    (fn : U → A → K → outcome T) (inv : U) (args : A) (kwargs : K) : M world Future :=
  emit (Submit inv) ;; ret (Fut (fn inv args kwargs)).

(** [future.result()] *)
Definition result (future : Future) : M world T := lift (fut_outcome future).

(** The order in which pending futures complete: at each step the next
    pick of the host (reduced modulo the number still pending, and [0]
    once the picks are used up) names the pending future that completes
    next. *)
Fixpoint completion_order {X} (fuel : nat) (picks : list nat) (pending : list X) : list X :=
  match fuel with
  | O => []
  | S fuel' =>
      let k := (default 0%nat (head picks) `mod` length pending)%nat in
      match pending !! k with
      | None => []
      | Some x => x :: completion_order fuel' (tail picks) (delete k pending)
      end
  end.

(** Modelled from the spec: [concurrent.futures.as_completed] belongs to
    Python's standard library, not to the repository.  It yields every
    future once, in completion order. *)
Definition as_completed (fs : list Future) : M world (list Future) :=
  λ w, (w, Return (completion_order (length fs) (completion w) fs)).

Definition tuple {X} (l : list X) : list X := l.

(** ** [run_parallel] *)

(** Lines 116-120, the choice of the multiprocessing context. *)
Definition select_context (mp_context : option BaseContext) : M world BaseContext :=
  match mp_context with
  | None =>
      try_except (get_context (Some "fork")) is_ValueError
                 (λ _, get_context None)
  | Some c => ret c
  end.

Definition run_parallel
    (func_to_call : U → A → K → outcome T)
    (iterable_input : list U)
    (input_desc : string)
    (n_processes : Z)
    (mp_context : option BaseContext)
    (args : A) (kwargs : K) : M world (list T) :=
  res <- (if n_processes =? 1 then
           logger_debug "Running serially" ;;
           for_tqdm (λ inv, emit (Call inv) ;; lift (func_to_call inv args kwargs))
                    input_desc iterable_input
         else
           mp_context <- select_context mp_context ;;
           logger_info ("Submitting " +:+ input_desc +:+ " to "
                        +:+ pretty n_processes +:+ " parallel processes") ;;
           with_executor (ProcessPoolExecutor_init n_processes mp_context)
             (λ executor,
                futures <- for_tqdm (λ inv, submit executor func_to_call inv args kwargs)
                                   ("Submitting " +:+ input_desc +:+ " to queue")
                                   iterable_input ;;
                completed <- as_completed futures ;;
                for_tqdm result "Retrieving parallel results" completed)) ;;
  ret (tuple res).

(** *** Reference behaviour, in the words of the spec *)

(** The three-way strategy of the spec: an explicit context is used as
    it is; otherwise the preferred (fork) context when the host has it,
    and the platform default when not. *)
Definition selected_context (mp_context : option BaseContext) (w : world) : BaseContext :=
  match mp_context with
  | Some c => c
  | None => if fork_available w then ForkContext else default_context w
  end.

(** The context lookups this takes. *)
Definition selection_events (mp_context : option BaseContext) (w : world) : list event :=
  match mp_context with
  | Some _ => []
  | None => if fork_available w then [GetContext (Some "fork")]
            else [GetContext (Some "fork"); GetContext None]
  end.

(** The events of a comprehension over [tqdm] that runs to its end: for
    each item what the body does, then one tick of the bar. *)
Definition ticked {X} (ev : X → list event) (desc : string) (xs : list X) : list event :=
  xs ≫= (λ x, ev x ++ [Tick desc]).

(** A body whose effect on the world is to record events that depend on
    the item only. *)
Definition simple_body {X Y} (body : X → M world Y)
    (ev : X → list event) (out : X → outcome Y) : Prop :=
  ∀ x w, body x w = (record (ev x) w, out x).

(** [ys] are the values of [out] on [xs], none of them raising. *)
Definition all_return {X Y} (out : X → outcome Y) (xs : list X) (ys : list Y) : Prop :=
  Forall2 (λ x y, out x = Return y) xs ys.

(** [x], after [pre], is the first item on which [out] raises. *)
Definition first_raise {X Y} (out : X → outcome Y) (xs pre : list X) (x : X)
    (ys : list Y) (e : exn) : Prop :=
  (∃ post, xs = pre ++ x :: post) ∧ all_return out pre ys ∧ out x = Raise e.

(** The bodies of the three comprehensions of [run_parallel]. *)
Definition serial_body (func_to_call : U → A → K → outcome T) (args : A) (kwargs : K)
    (inv : U) : M world T :=
  emit (Call inv) ;; lift (func_to_call inv args kwargs).

(** What the pool path records up to the end of the submission phase. *)
Definition submission_events (input_desc : string) (n_processes : Z)
    (mp_context : option BaseContext) (xs : list U) (w : world) : list event :=
  selection_events mp_context w
  ++ [LogInfo ("Submitting " +:+ input_desc +:+ " to "
               +:+ pretty n_processes +:+ " parallel processes");
      PoolCreate n_processes (selected_context mp_context w)]
  ++ ticked (λ inv, [Submit inv]) ("Submitting " +:+ input_desc +:+ " to queue") xs.

(** The ticks of the retrieval phase, one per outcome retrieved. *)
Definition retrieval_events {X} (retrieved : list X) : list event :=
  ticked (λ _, []) "Retrieving parallel results" retrieved.

(** The futures of the submission phase, and the order they complete in. *)
Definition futures_of (func_to_call : U → A → K → outcome T) (args : A) (kwargs : K)
    (xs : list U) : list Future :=
  (λ inv, Fut (func_to_call inv args kwargs)) <$> xs.

Definition completed_futures (func_to_call : U → A → K → outcome T) (args : A) (kwargs : K)
    (xs : list U) (w : world) : list Future :=
  completion_order (length xs) (completion w) (futures_of func_to_call args kwargs xs).

End Runner.

Arguments event : clear implicits.
Arguments world : clear implicits.
Arguments Future : clear implicits.

(** ** Concrete callables and hosts, for the end-to-end examples *)

Inductive pyval : Type := PyInt (n : Z) | PyStr (s : string).

(** [lambda x: x*2] on integers. *)
Definition double (x : Z) (_ _ : unit) : outcome Z := Return (x * 2).

(** [lambda v: v+1]: adding an integer to a string is a [TypeError]. *)
Definition add_one (v : pyval) (_ _ : unit) : outcome pyval :=
  match v with
  | PyInt n => Return (PyInt (n + 1))
  | PyStr _ => Raise (TypeError "can only concatenate str (not 'int') to str")
  end.

(** A host with [fork] (its default context is fork as well) and a host
    without it, each with the completion picks of its scheduler and
    nothing done yet. *)
Definition posix_host {U} (picks : list nat) : world U := World true ForkContext picks [].
Definition windows_host {U} (picks : list nat) : world U := World false SpawnContext picks [].

(** ** Tables and [assert_only_working_on_variable_unit_variations] *)

Section Guard.
Context {V D : Type} `{EqDecision V}.

(** A multi-level index: the level names and one tuple of labels per
    row, aligned with the names. *)
Record MultiIndex : Type := MkIndex {
  names : list string;
  tuples : list (list V)
}.

Record DataFrame : Type := MkFrame {
  index : MultiIndex;
  columns : list string;
  values : list (list D)
}.

(** [mi.shape[0]] *)
Definition shape0 (mi : MultiIndex) : nat := length (tuples mi).

(** The labels of one row on the levels named in [levels]. *)
Definition project (nms levels : list string) (row : list V) : list V :=
  (filter (λ p, p.1 ∈ levels) (zip nms row)).*2.

(** Modelled from the spec: the [pix] accessor belongs to the library
    [pandas_indexing], not to the repository.  [indf.pix.unique(levels)]
    projects the index onto the given levels and keeps each joint
    combination of labels once (the spec's set of distinct joint
    value-combinations); it builds a new index and leaves [indf] alone. *)
Definition pix_unique (indf : DataFrame) (levels : list string) : MultiIndex :=
  MkIndex (filter (λ n, n ∈ levels) (names (index indf)))
          (remove_dups (project (names (index indf)) levels <$> tuples (index indf))).

(** [repr] of an index, as the f-string [f"{variations_in_other_cols=}"]
    renders it; the rendering belongs to pandas and stays a parameter. *)
Variable repr : MultiIndex → string.

(** Reading from the table the guard was handed. *)
Definition read {X} (f : DataFrame → X) : M DataFrame X := λ indf, (indf, Return (f indf)).

Definition assert_only_working_on_variable_unit_variations : M DataFrame unit :=
  non_v_u_cols <- read (λ indf,
      elements ((list_to_set (names (index indf)) : gset string)
                ∖ list_to_set ["variable"; "unit"])) ;;
  variations_in_other_cols <- read (λ indf, pix_unique indf non_v_u_cols) ;;
  if decide (1 < shape0 variations_in_other_cols)%nat then
    raise (AssertionError ("variations_in_other_cols=" +:+ repr variations_in_other_cols))
  else ret tt.

(** What the spec calls the joint value-combination of a row: its labels
    on every level other than [variable] and [unit]. *)
Definition other_labels (indf : DataFrame) (row : list V) : list V :=
  (filter (λ p, p.1 ≠ "variable" ∧ p.1 ≠ "unit") (zip (names (index indf)) row)).*2.

(** The distinct joint value-combinations the table shows on those
    levels. *)
Definition combinations (indf : DataFrame) : list (list V) :=
  remove_dups (other_labels indf <$> tuples (index indf)).

(** The levels other than [variable] and [unit], in index order. *)
Definition other_levels (indf : DataFrame) : list string :=
  filter (λ n, n ≠ "variable" ∧ n ≠ "unit") (names (index indf)).

End Guard.

Arguments MultiIndex : clear implicits.
Arguments DataFrame : clear implicits.

(** Two tables of emissions for the examples: one that varies in
    [variable] and [unit] only, one with two models. *)
Definition one_group : DataFrame string Z :=
  MkFrame (MkIndex ["model"; "scenario"; "variable"; "unit"]
                   [["model_a"; "ssp119"; "Emissions|CO2"; "Mt CO2/yr"];
                    ["model_a"; "ssp119"; "Emissions|CH4"; "Mt CH4/yr"]])
          ["2015"; "2020"] [[10; 11]; [20; 21]].

(** A plain rendering of an index of strings, to run the guard with:
    the tuples, then the level names. *)
Definition show_list (xs : list string) : string :=
  "[" +:+ String.concat ", " xs +:+ "]".
Definition show_index (mi : MultiIndex string) : string :=
  "MultiIndex(" +:+ show_list (show_list <$> tuples mi)
  +:+ ", names=" +:+ show_list (names mi) +:+ ")".

Definition two_models : DataFrame string Z :=
  MkFrame (MkIndex ["model"; "scenario"; "variable"; "unit"]
                   [["model_a"; "ssp119"; "Emissions|CO2"; "Mt CO2/yr"];
                    ["model_b"; "ssp119"; "Emissions|CO2"; "Mt CO2/yr"]])
          ["2015"; "2020"] [[10; 11]; [20; 21]].

(** ** Further code of the package: [gcages.testing] and a notebook helper *)

From Stdlib Require Import Ascii.

(** Events the serial path may record. *)
Definition is_serial_event {U} (e : event U) : bool :=
  match e with LogDebug _ | Call _ | Tick _ => true | _ => false end.

(** *** Python's [str.replace] *)

(** The scan of [s.replace(old, new)] for a non-empty [old]: from the
    left, an occurrence of [old] at the current position is replaced by
    [new] and stepped over ([skip] counts the characters of it still to
    step over); any other character is kept. *)
Fixpoint replace_from (old new : string) (skip : nat) (s : string) : string :=
  match s with
  | EmptyString => EmptyString
  | String c s' =>
      match skip with
      | S k => replace_from old new k s'
      | O => if String.prefix old s
             then new +:+ replace_from old new (String.length old - 1) s'
             else String c (replace_from old new O s')
      end
  end.

(** With an empty [old], Python puts [new] before every character and
    at the end. *)
Fixpoint insert_after_each (new s : string) : string :=
  match s with
  | EmptyString => EmptyString
  | String c s' => String c (new +:+ insert_after_each new s')
  end.

Definition str_replace (old new s : string) : string :=
  match old with
  | EmptyString => new +:+ insert_after_each new s
  | String _ _ => replace_from old new 0 s
  end.

(** [old in s] *)
Definition occurs (old s : string) : Prop := ∃ pre post, s = pre +:+ old +:+ post.

(** [old in s], computed: [old] starts at the head of [s] or further on. *)
Fixpoint contains (old s : string) : bool :=
  String.prefix old s
  || match s with
     | EmptyString => false
     | String _ s' => contains old s'
     end.

(** The characters of a string. *)
Definition chars (s : string) : list Ascii.ascii := String.list_ascii_of_string s.

(** *** [gcages.testing]: the AR6 file names *)

(** [AR6_IPS] (lines 28-38): model and scenario of the AR6 illustrative
    pathways. *)
Definition AR6_IPS : list (string * string) :=
  [("AIM/CGE 2.2", "EN_NPi2020_900f");
   ("COFFEE 1.1", "EN_NPi2020_400f_lowBECCS");
   ("GCAM 5.3", "NGFS2_Current Policies");
   ("IMAGE 3.0", "EN_INDCi2030_3000f");
   ("MESSAGEix-GLOBIOM 1.0", "LowEnergyDemand_1.3_IPCC");
   ("MESSAGEix-GLOBIOM_GEI 1.0", "SSP2_openres_lc_50");
   ("REMIND-MAgPIE 2.1-4.2", "SusDev_SDP-PkBudg1000");
   ("REMIND-MAgPIE 2.1-4.3", "DeepElec_SSP2_ HighRE_Budg900");
   ("WITCH 5.0", "CO_Bridge")].

(** Lines 114-115 of [get_ar6_all_emissions]: the name of the file the
    emissions of a model-scenario are loaded from. *)
Definition filename_emissions (model scenario : string) : string :=
  let filename_emissions :=
    "ar6_scenarios__" +:+ model +:+ "__" +:+ scenario +:+ "__emissions.csv" in
  str_replace " " "_" (str_replace "/" "_" filename_emissions).

(** Lines 249-250 of [get_ar6_temperature_outputs]. *)
Definition filename_temperatures (model scenario : string) : string :=
  let filename_temperatures :=
    "ar6_scenarios__" +:+ model +:+ "__" +:+ scenario +:+ "__temperatures.csv" in
  str_replace " " "_" (str_replace "/" "_" filename_temperatures).

(** What the two replacements do to a name on its own. *)
Definition sanitised (name : string) : string :=
  str_replace " " "_" (str_replace "/" "_" name).

(** *** The notebook [0201_create-composite-history]: RCMIP variable names *)

Definition replacements : list (string * string) :=
  [("F-Gases|", "");
   ("PFC|", "");
   ("HFC4310mee", "HFC43-10");
   ("MAGICC AFOLU", "AFOLU");
   ("MAGICC Fossil and Industrial", "Energy and Industrial Processes")].

Definition transform_rcmip_to_iamc_variable (v : string) : string :=
  foldl (λ res '(old, new), str_replace old new res) v replacements.

(** *** [gcages.testing.assert_frame_equal] *)

Section FrameEqual.
Context {V D Rtol Kw : Type} `{EqDecision V}.

(** [level_not_found name]: what the accessor raises when the index has
    no level [name]; which exception that is belongs to the library. *)
Variable level_not_found : string → exn.

(** [repr] of the index of differing labels, as the f-string
    [f"{idx_diffs=}"] renders it (pandas orders the labels where it can
    before it shows them). *)
Variable repr_diffs : MultiIndex V → string.

(** [pd.testing.assert_frame_equal(res.T, exp.T, check_like=True,
    check_exact=False, rtol=rtol, **kwargs)]: the comparison of pandas,
    with its floating-point tolerance, stays a parameter. *)
Variable pd_testing_assert_frame_equal :
  Rtol → Kw → DataFrame V D → DataFrame V D → outcome unit.

(** Modelled from the spec: [indf.pix.unique(idx_name)] for one level
    name, by the accessor of [pandas_indexing]: the distinct labels of
    that level, and an error when the index has no such level. *)
Definition unique_level (indf : DataFrame V D) (idx_name : string) : outcome (MultiIndex V) :=
  if decide (idx_name ∈ names (index indf))
  then Return (pix_unique indf [idx_name])
  else Raise (level_not_found idx_name).

(** [a.symmetric_difference(b)]: the labels in exactly one of the two. *)
Definition symmetric_difference (a b : MultiIndex V) : MultiIndex V :=
  MkIndex (names a)
          (filter (λ c, c ∉ tuples b) (tuples a) ++ filter (λ c, c ∉ tuples a) (tuples b)).

(** [mi.empty] *)
Definition empty (mi : MultiIndex V) : bool := bool_decide (tuples mi = []).

(** The loop of lines 317-323 over the level names still to check. *)
Fixpoint check_index_levels (res exp : DataFrame V D) (idx_names : list string)
  : outcome unit :=
  match idx_names with
  | [] => Return tt
  | idx_name :: rest =>
      match unique_level res idx_name with
      | Raise e => Raise e
      | Return res_labels =>
          match unique_level exp idx_name with
          | Raise e => Raise e
          | Return exp_labels =>
              let idx_diffs := symmetric_difference res_labels exp_labels in
              if negb (empty idx_diffs) then
                Raise (AssertionError
                         ("Differences in the " +:+ idx_name
                          +:+ " (res on the left): idx_diffs=" +:+ repr_diffs idx_diffs))
              else check_index_levels res exp rest
          end
      end
  end.

Definition assert_frame_equal (res exp : DataFrame V D) (rtol : Rtol) (kwargs : Kw)
  : outcome unit :=
  match check_index_levels res exp (names (index res)) with
  | Raise e => Raise e
  | Return _ => pd_testing_assert_frame_equal rtol kwargs res exp
  end.

(** The labels a table shows at one level. *)
Definition level_labels (indf : DataFrame V D) (idx_name : string) : list (list V) :=
  project (names (index indf)) [idx_name] <$> tuples (index indf).

(** Two tables show the same labels at a level. *)
Definition same_labels (res exp : DataFrame V D) (idx_name : string) : Prop :=
  ∀ c, c ∈ level_labels res idx_name ↔ c ∈ level_labels exp idx_name.

End FrameEqual.

(** * Facts about the runner *)

Section RunnerFacts.
Context {U T A K : Type}.
Implicit Types (w : world U) (es : list (event U)).
Implicit Types (func_to_call : U → A → K → outcome T).

Lemma record_nil w : record [] w = w.
Proof. destruct w; unfold record; simpl. by rewrite app_nil_r. Qed.

Lemma record_record es1 es2 w : record es2 (record es1 w) = record (es1 ++ es2) w.
Proof. unfold record; simpl. by rewrite app_assoc. Qed.

Lemma trace_record es w : trace (record es w) = trace w ++ es.
Proof. done. Qed.

Lemma completion_record es w : completion (record es w) = completion w.
Proof. done. Qed.

Lemma ticked_cons {X} (ev : X → list (event U)) desc x xs :
  ticked ev desc (x :: xs) = ev x ++ Tick desc :: ticked ev desc xs.
Proof. unfold ticked. rewrite bind_cons. by rewrite <- app_assoc. Qed.

(** *** Comprehensions over [tqdm] *)

Lemma for_tqdm_returns {X Y} (body : X → M (world U) Y) ev out desc xs ys w :
  simple_body body ev out →
  all_return out xs ys →
  for_tqdm body desc xs w = (record (ticked ev desc xs) w, Return ys).
Proof.
  intros Hbody Hall. revert w.
  induction Hall as [|x y xs ys Hx _ IH]; intros w; cbn [for_tqdm app].
  - unfold ret. by rewrite record_nil.
  - unfold bind at 1. rewrite Hbody, Hx.
    unfold bind at 1, emit. unfold bind at 1. rewrite IH. unfold ret.
    rewrite !record_record, ticked_cons. by rewrite <- ?app_assoc.
Qed.

Lemma for_tqdm_raises {X Y} (body : X → M (world U) Y) ev out desc xs pre x ys e w :
  simple_body body ev out →
  first_raise out xs pre x ys e →
  for_tqdm body desc xs w = (record (ticked ev desc pre ++ ev x) w, Raise e).
Proof.
  intros Hbody ([post ->] & Hall & Hx). revert w.
  induction Hall as [|x0 y0 pre ys Hx0 _ IH]; intros w; cbn [for_tqdm app].
  - unfold bind at 1. by rewrite Hbody, Hx.
  - unfold bind at 1. rewrite Hbody, Hx0.
    unfold bind at 1, emit. unfold bind at 1. rewrite IH.
    rewrite !record_record, ticked_cons. by rewrite <- ?app_assoc.
Qed.

(** Every list of items either goes through or has a first failure. *)
Lemma all_return_or_first_raise {X Y} (out : X → outcome Y) xs :
  (∃ ys, all_return out xs ys) ∨ (∃ pre x ys e, first_raise out xs pre x ys e).
Proof.
  induction xs as [|x xs IH].
  - left. exists []. constructor.
  - destruct (out x) as [y|e] eqn:Hx.
    + destruct IH as [[ys Hys]|(pre & x' & ys & e & [post ->] & Hall & Hx')].
      * left. exists (y :: ys). by constructor.
      * right. exists (x :: pre), x', (y :: ys), e. split_and!; [by exists post| |done].
        by constructor.
    + right. exists [], x, [], e. split_and!; [by exists xs|constructor|done].
Qed.

Lemma all_return_length {X Y} (out : X → outcome Y) xs ys :
  all_return out xs ys → length ys = length xs.
Proof. intros H. symmetry. by eapply Forall2_length. Qed.

Lemma all_return_lookup {X Y} (out : X → outcome Y) xs ys i x :
  all_return out xs ys → xs !! i = Some x → ∃ y, ys !! i = Some y ∧ out x = Return y.
Proof. intros H Hi. by eapply Forall2_lookup_l in H. Qed.

Lemma all_return_intro {X Y} (out : X → outcome Y) xs :
  (∀ x, x ∈ xs → returns (out x)) → ∃ ys, all_return out xs ys.
Proof.
  intros Hok. destruct (all_return_or_first_raise out xs) as [?|(pre & x & ys & e & [post ->] & _ & Hx)];
    [done|].
  destruct (Hok x) as [y Hy]; [set_solver|congruence].
Qed.

(** *** Completion order *)

Lemma completion_order_perm {X} picks (l : list X) :
  completion_order (length l) picks l ≡ₚ l.
Proof.
  remember (length l) as n eqn:Hn. revert picks l Hn.
  induction n as [|n IH]; intros picks l Hn.
  - by destruct l.
  - cbn [completion_order].
    set (k := (default 0 (head picks) `mod` length l)%nat).
    assert (k < length l)%nat as Hk by (apply Nat.mod_upper_bound; lia).
    destruct (lookup_lt_is_Some_2 l k Hk) as [x Hx]. rewrite Hx.
    rewrite (delete_Permutation l k x Hx) at 2. constructor.
    apply IH. rewrite length_delete by eauto. lia.
Qed.

Lemma completion_order_length {X} picks (l : list X) :
  length (completion_order (length l) picks l) = length l.
Proof. apply Permutation_length, completion_order_perm. Qed.

Lemma completion_order_Forall2 {X Y} (R : X → Y → Prop) n picks xs ys :
  Forall2 R xs ys →
  Forall2 R (completion_order n picks xs) (completion_order n picks ys).
Proof.
  revert picks xs ys. induction n as [|n IH]; intros picks xs ys HR; cbn [completion_order].
  - constructor.
  - rewrite <- (Forall2_length _ _ _ HR).
    set (k := (default 0 (head picks) `mod` length xs)%nat).
    destruct (xs !! k) as [x|] eqn:Hx.
    + destruct (Forall2_lookup_l _ _ _ _ _ HR Hx) as (y & -> & Hxy).
      constructor; [done|]. apply IH. by apply Forall2_delete.
    + apply lookup_ge_None in Hx. rewrite (Forall2_length _ _ _ HR) in Hx.
      apply lookup_ge_None in Hx. rewrite Hx. constructor.
Qed.

Lemma completed_futures_all_return func_to_call args kwargs xs ys w :
  all_return (λ inv, func_to_call inv args kwargs) xs ys →
  all_return fut_outcome (completed_futures func_to_call args kwargs xs w)
             (completion_order (length xs) (completion w) ys).
Proof.
  intros Hall. apply completion_order_Forall2.
  unfold futures_of. by apply Forall2_fmap_l.
Qed.

Lemma completed_futures_perm func_to_call args kwargs xs w :
  completed_futures func_to_call args kwargs xs w ≡ₚ futures_of func_to_call args kwargs xs.
Proof.
  unfold completed_futures.
  replace (length xs) with (length (futures_of func_to_call args kwargs xs))
    by (unfold futures_of; apply length_fmap).
  apply completion_order_perm.
Qed.

(** A future that completed is the future of a submitted item. *)
Lemma completed_future_origin func_to_call args kwargs xs w fut :
  fut ∈ completed_futures func_to_call args kwargs xs w →
  ∃ inv, inv ∈ xs ∧ fut_outcome fut = func_to_call inv args kwargs.
Proof.
  rewrite completed_futures_perm. unfold futures_of.
  intros (inv & -> & Hinv)%list_elem_of_fmap. by exists inv.
Qed.

(** *** The three comprehension bodies are simple *)

Lemma serial_body_simple func_to_call args kwargs :
  simple_body (serial_body func_to_call args kwargs)
              (λ inv, [Call inv]) (λ inv, func_to_call inv args kwargs).
Proof. intros inv w. unfold serial_body, bind, emit, lift. by destruct (func_to_call _ _ _). Qed.

Lemma submit_simple executor func_to_call args kwargs :
  simple_body (λ inv, submit executor func_to_call inv args kwargs)
              (λ inv, [Submit inv]) (λ inv, Return (Fut (func_to_call inv args kwargs))).
Proof. by intros inv w. Qed.

Lemma result_simple : simple_body (@result U T) (λ _, []) fut_outcome.
Proof. intros fut w. unfold result, lift. by rewrite record_nil. Qed.

Lemma submission_all_return func_to_call args kwargs xs :
  all_return (λ inv, Return (Fut (func_to_call inv args kwargs))) xs
             (futures_of func_to_call args kwargs xs).
Proof. unfold all_return, futures_of. apply Forall2_fmap_r, Forall_Forall2_diag, Forall_true. done. Qed.

(** *** Context selection *)

Lemma select_context_run mp_context w :
  select_context mp_context w
  = (record (selection_events mp_context w) w, Return (selected_context mp_context w)).
Proof.
  destruct mp_context as [c|]; cbn.
  - unfold ret. by rewrite record_nil.
  - unfold try_except, get_context, bind, emit. cbn.
    destruct (fork_available w) eqn:Hf; cbn; [done|].
    by rewrite record_record.
Qed.

(** *** The serial path *)

Lemma run_parallel_serial_returns func_to_call xs desc mp_context args kwargs ys w :
  all_return (λ inv, func_to_call inv args kwargs) xs ys →
  run_parallel func_to_call xs desc 1 mp_context args kwargs w
  = (record (LogDebug "Running serially" :: ticked (λ inv, [Call inv]) desc xs) w, Return ys).
Proof.
  intros Hall. unfold run_parallel. cbn [Z.eqb Pos.eqb].
  unfold bind at 1. unfold bind at 1. unfold logger_debug, emit.
  erewrite (for_tqdm_returns (serial_body func_to_call args kwargs));
    [|apply serial_body_simple|done].
  by rewrite record_record.
Qed.

Lemma run_parallel_serial_raises func_to_call xs desc mp_context args kwargs pre x ys e w :
  first_raise (λ inv, func_to_call inv args kwargs) xs pre x ys e →
  run_parallel func_to_call xs desc 1 mp_context args kwargs w
  = (record (LogDebug "Running serially" :: ticked (λ inv, [Call inv]) desc pre ++ [Call x]) w,
     Raise e).
Proof.
  intros Hfirst. unfold run_parallel. cbn [Z.eqb Pos.eqb].
  unfold bind at 1. unfold bind at 1. unfold logger_debug, emit.
  erewrite (for_tqdm_raises (serial_body func_to_call args kwargs));
    [|apply serial_body_simple|done].
  by rewrite record_record.
Qed.

(** *** The pool path *)

Lemma run_parallel_pool_refused func_to_call xs desc n mp_context args kwargs w :
  n ≤ 0 →
  run_parallel func_to_call xs desc n mp_context args kwargs w
  = (record (selection_events mp_context w
             ++ [LogInfo ("Submitting " +:+ desc +:+ " to " +:+ pretty n
                          +:+ " parallel processes")]) w,
     Raise (ValueError "max_workers must be greater than 0")).
Proof.
  intros Hn. unfold run_parallel.
  destruct (Z.eqb_spec n 1) as [->|_]; [lia|].
  unfold bind at 1. unfold bind at 1. rewrite select_context_run.
  unfold bind at 1. unfold logger_info, emit.
  unfold with_executor, ProcessPoolExecutor_init.
  destruct (Z.leb_spec n 0); [|lia]. unfold raise.
  by rewrite record_record.
Qed.

Lemma run_parallel_pool_returns func_to_call xs desc n mp_context args kwargs ys w :
  n ≠ 1 → 0 < n →
  all_return fut_outcome (completed_futures func_to_call args kwargs xs w) ys →
  run_parallel func_to_call xs desc n mp_context args kwargs w
  = (record (submission_events desc n mp_context xs w
             ++ retrieval_events (completed_futures func_to_call args kwargs xs w)
             ++ [PoolShutdown]) w,
     Return ys).
Proof.
  intros Hn1 Hn Hall. unfold run_parallel.
  destruct (Z.eqb_spec n 1) as [->|_]; [done|].
  unfold bind at 1. unfold bind at 1. rewrite select_context_run.
  unfold bind at 1. unfold logger_info, emit.
  unfold with_executor, ProcessPoolExecutor_init.
  destruct (Z.leb_spec n 0); [lia|].
  unfold bind at 1. unfold emit, ret at 1.
  unfold bind at 1.
  erewrite for_tqdm_returns; [|apply submit_simple|apply submission_all_return].
  unfold bind at 1. unfold as_completed.
  replace (length (futures_of func_to_call args kwargs xs)) with (length xs)
    by (unfold futures_of; by rewrite length_fmap).
  rewrite !completion_record.
  erewrite (for_tqdm_returns result); [|apply result_simple|exact Hall].
  unfold ret, tuple, submission_events, retrieval_events.
  rewrite !record_record. by rewrite <- !app_assoc.
Qed.

Lemma run_parallel_pool_raises func_to_call xs desc n mp_context args kwargs pre fut ys e w :
  n ≠ 1 → 0 < n →
  first_raise fut_outcome (completed_futures func_to_call args kwargs xs w) pre fut ys e →
  run_parallel func_to_call xs desc n mp_context args kwargs w
  = (record (submission_events desc n mp_context xs w
             ++ retrieval_events pre ++ [PoolShutdown]) w,
     Raise e).
Proof.
  intros Hn1 Hn Hfirst. unfold run_parallel.
  destruct (Z.eqb_spec n 1) as [->|_]; [done|].
  unfold bind at 1. unfold bind at 1. rewrite select_context_run.
  unfold bind at 1. unfold logger_info, emit.
  unfold with_executor, ProcessPoolExecutor_init.
  destruct (Z.leb_spec n 0); [lia|].
  unfold bind at 1. unfold emit, ret at 1.
  unfold bind at 1.
  erewrite for_tqdm_returns; [|apply submit_simple|apply submission_all_return].
  unfold bind at 1. unfold as_completed.
  replace (length (futures_of func_to_call args kwargs xs)) with (length xs)
    by (unfold futures_of; by rewrite length_fmap).
  rewrite !completion_record.
  erewrite (for_tqdm_raises result); [|apply result_simple|exact Hfirst].
  unfold submission_events, retrieval_events.
  rewrite !record_record, app_nil_r. by rewrite <- !app_assoc.
Qed.

(** *** Reading traces *)

Lemma calls_app es1 es2 : calls (es1 ++ es2) = calls es1 ++ calls es2.
Proof. apply omap_app. Qed.

Lemma submitted_app es1 es2 : submitted (es1 ++ es2) = submitted es1 ++ submitted es2.
Proof. apply omap_app. Qed.

Lemma calls_ticked {X} (ev : X → list (event U)) desc xs :
  calls (ticked ev desc xs) = xs ≫= (λ x, calls (ev x)).
Proof.
  induction xs as [|x xs IH]; [done|].
  rewrite ticked_cons, bind_cons, calls_app, <- IH. done.
Qed.

Lemma submitted_ticked {X} (ev : X → list (event U)) desc xs :
  submitted (ticked ev desc xs) = xs ≫= (λ x, submitted (ev x)).
Proof.
  induction xs as [|x xs IH]; [done|].
  rewrite ticked_cons, bind_cons, submitted_app, <- IH. done.
Qed.

Lemma bind_singleton {X} (xs : list X) : xs ≫= (λ x, [x]) = xs.
Proof. induction xs as [|x xs IH]; [done|]. rewrite bind_cons. cbn. by rewrite IH. Qed.

Lemma bind_nothing {X Y} (xs : list X) : xs ≫= (λ _, @nil Y) = [].
Proof. induction xs as [|x xs IH]; [done|]. by rewrite bind_cons. Qed.

Lemma calls_selection mp_context w : calls (selection_events mp_context w) = [].
Proof. destruct mp_context; cbn; [done|]. by destruct (fork_available w). Qed.

Lemma submitted_selection mp_context w : submitted (selection_events mp_context w) = [].
Proof. destruct mp_context; cbn; [done|]. by destruct (fork_available w). Qed.

Lemma calls_submission desc n mp_context xs w :
  calls (submission_events desc n mp_context xs w) = [].
Proof.
  unfold submission_events. rewrite !calls_app, calls_selection, calls_ticked. cbn.
  apply bind_nothing.
Qed.

Lemma submitted_submission desc n mp_context xs w :
  submitted (submission_events desc n mp_context xs w) = xs.
Proof.
  unfold submission_events. rewrite !submitted_app, submitted_selection, submitted_ticked. cbn.
  apply bind_singleton.
Qed.

Lemma calls_retrieval {X} (retrieved : list X) : calls (retrieval_events (U:=U) retrieved) = [].
Proof. unfold retrieval_events. rewrite calls_ticked. apply bind_nothing. Qed.

Lemma submitted_retrieval {X} (retrieved : list X) :
  submitted (retrieval_events (U:=U) retrieved) = [].
Proof. unfold retrieval_events. rewrite submitted_ticked. apply bind_nothing. Qed.

Lemma no_pool_event_ticked {X} (ev : X → list (event U)) desc xs :
  (∀ x, Forall (λ e, is_pool_event e = false) (ev x)) →
  Forall (λ e, is_pool_event e = false) (ticked ev desc xs).
Proof.
  intros Hev. induction xs as [|x xs IH]; [constructor|].
  rewrite ticked_cons. apply Forall_app. split; [done|]. by constructor.
Qed.

Lemma no_pool_event_selection mp_context w :
  Forall (λ e, is_pool_event e = false) (selection_events mp_context w).
Proof.
  destruct mp_context; cbn; [constructor|].
  destruct (fork_available w); repeat constructor.
Qed.

End RunnerFacts.

(** * The runner's properties *)

(** C1. With [n_processes == 1], on any finite input on which the
    callable returns, [run_parallel] returns a collection of the length
    of the input whose element at position [i] is the callable applied
    to the [i]-th input (with the extra arguments), and the callable was
    invoked on the inputs one after the other in input order; in
    particular [run_parallel(lambda x: x*2, [1,2,3], "double", 1)] is
    [(2,4,6)]. *)
Theorem run_parallel_serial_in_order :
  (∀ (U T A K : Type) (func_to_call : U → A → K → outcome T)
     (iterable_input : list U) (input_desc : string)
     (mp_context : option BaseContext) (args : A) (kwargs : K) (w : world U),
     (∀ inv, inv ∈ iterable_input → returns (func_to_call inv args kwargs)) →
     ∃ res,
       (run_parallel func_to_call iterable_input input_desc 1 mp_context args kwargs w).2
         = Return res
       ∧ length res = length iterable_input
       ∧ (∀ i inv, iterable_input !! i = Some inv →
            ∃ v, res !! i = Some v ∧ func_to_call inv args kwargs = Return v)
       ∧ calls (trace (run_parallel func_to_call iterable_input input_desc 1
                                    mp_context args kwargs w).1)
         = calls (trace w) ++ iterable_input)
  ∧ (∀ mp_context (w : world Z),
       (run_parallel double [1; 2; 3] "double" 1 mp_context tt tt w).2 = Return [2; 4; 6]).
Proof.
  split.
  - intros U T A K func_to_call xs desc mp_context args kwargs w Hok.
    destruct (all_return_intro (λ inv, func_to_call inv args kwargs) xs Hok) as [ys Hall].
    exists ys. rewrite (run_parallel_serial_returns _ _ _ _ _ _ ys) by done.
    cbn [fst snd]. split_and!.
    + done.
    + by eapply all_return_length.
    + intros i inv Hi. exact (all_return_lookup _ _ _ _ _ Hall Hi).
    + rewrite trace_record, calls_app. f_equal.
      change (calls (ticked (λ inv, [Call inv]) desc xs) = xs).
      rewrite calls_ticked. apply bind_singleton.
  - intros mp_context w.
    by rewrite (run_parallel_serial_returns _ _ _ _ _ _ [2; 4; 6])
      by (unfold all_return; repeat constructor).
Qed.

Lemma run_parallel_serial_in_order_witness :
  ∃ res,
    (run_parallel add_one [PyInt 1; PyInt 2] "add" 1 None tt tt (windows_host [])).2
      = Return res
    ∧ length res = 2%nat.
Proof.
  destruct (proj1 run_parallel_serial_in_order pyval pyval unit unit add_one
              [PyInt 1; PyInt 2] "add" None tt tt (windows_host []))
    as (res & Hres & Hlen & _).
  - intros inv Hinv. apply list_elem_of_In in Hinv.
    destruct Hinv as [<-|[<-|[]]]; eexists; reflexivity.
  - exists res. split; [exact Hres|exact Hlen].
Defined.

(** C9. With an empty input, for the serial path ([n_processes == 1])
    and for the pool path ([n_processes > 1]) alike, [run_parallel]
    returns the empty tuple, and the callable is neither called nor
    submitted. *)
Theorem run_parallel_empty_input {U T A K : Type} (func_to_call : U → A → K → outcome T)
    (input_desc : string) (n_processes : Z) (mp_context : option BaseContext)
    (args : A) (kwargs : K) (w : world U) :
  1 ≤ n_processes →
  (run_parallel func_to_call [] input_desc n_processes mp_context args kwargs w).2 = Return []
  ∧ calls (trace (run_parallel func_to_call [] input_desc n_processes
                               mp_context args kwargs w).1) = calls (trace w)
  ∧ submitted (trace (run_parallel func_to_call [] input_desc n_processes
                                   mp_context args kwargs w).1) = submitted (trace w).
Proof.
  intros Hn. destruct (decide (n_processes = 1)) as [->|Hn1].
  - rewrite (run_parallel_serial_returns _ _ _ _ _ _ []) by (unfold all_return; constructor).
    cbn [fst snd]. rewrite trace_record, calls_app, submitted_app. cbn.
    by rewrite !app_nil_r.
  - rewrite (run_parallel_pool_returns _ _ _ _ _ _ _ [])
      by (done || lia || (unfold all_return; constructor)).
    cbn [fst snd]. rewrite trace_record, !calls_app, !submitted_app.
    rewrite calls_submission, submitted_submission. cbn.
    by rewrite !app_nil_r.
Qed.

Lemma run_parallel_empty_input_witness :
  (run_parallel double [] "double" 4 None tt tt (windows_host [])).2 = Return []
  ∧ (run_parallel double [] "double" 1 None tt tt (windows_host [])).2 = Return [].
Proof.
  split.
  - apply (run_parallel_empty_input double "double" 4 None tt tt (windows_host [])). lia.
  - apply (run_parallel_empty_input double "double" 1 None tt tt (windows_host [])). lia.
Defined.

(** C10. With [n_processes == 1] the whole run (the result and
    everything recorded) is the same for any two values of [mp_context]:
    the serial branch never reads it. *)
Theorem run_parallel_serial_ignores_mp_context {U T A K : Type}
    (func_to_call : U → A → K → outcome T) (iterable_input : list U)
    (input_desc : string) (mp_context1 mp_context2 : option BaseContext)
    (args : A) (kwargs : K) (w : world U) :
  run_parallel func_to_call iterable_input input_desc 1 mp_context1 args kwargs w
  = run_parallel func_to_call iterable_input input_desc 1 mp_context2 args kwargs w.
Proof. reflexivity. Qed.

Lemma all_return_elem {X Y} (out : X → outcome Y) xs ys x :
  all_return out xs ys → x ∈ xs → returns (out x).
Proof.
  intros Hall (i & Hi)%list_elem_of_lookup.
  destruct (Forall2_lookup_l _ _ _ _ _ Hall Hi) as (y & _ & Hy). by exists y.
Qed.

Lemma first_raise_elem {X Y} (out : X → outcome Y) xs pre x ys e :
  first_raise out xs pre x ys e → x ∈ xs.
Proof. intros ([post ->] & _). set_solver. Qed.

Lemma raises_not_returns {Y} (o : outcome Y) : raises o → ¬ returns o.
Proof. intros [e ->] [y ?]. done. Qed.

(** C2. When the callable raises on some work item, [run_parallel]
    raises, and what it raises is the very exception the callable raised
    on an item of the input: in serial mode that of the first failing
    item in input order, raised at that invocation (the callable has
    been called on the items up to it and on none after it); in
    parallel mode that of the first failing task in completion order,
    raised when its outcome is retrieved (after the outcomes completed
    before it were retrieved, and before the pool is shut down).  No
    collection is returned. *)
Theorem run_parallel_propagates_exception {U T A K : Type}
    (func_to_call : U → A → K → outcome T) (iterable_input : list U)
    (input_desc : string) (n_processes : Z) (mp_context : option BaseContext)
    (args : A) (kwargs : K) (w : world U) :
  1 ≤ n_processes →
  (∃ inv, inv ∈ iterable_input ∧ raises (func_to_call inv args kwargs)) →
  ∃ e inv,
    (run_parallel func_to_call iterable_input input_desc n_processes
                  mp_context args kwargs w).2 = Raise e
    ∧ inv ∈ iterable_input
    ∧ func_to_call inv args kwargs = Raise e
    ∧ (n_processes = 1 →
         ∃ pre ys,
           first_raise (λ inv, func_to_call inv args kwargs) iterable_input pre inv ys e
           ∧ calls (trace (run_parallel func_to_call iterable_input input_desc n_processes
                                        mp_context args kwargs w).1)
             = calls (trace w) ++ pre ++ [inv])
    ∧ (1 < n_processes →
         ∃ pre fut ys,
           first_raise fut_outcome
             (completed_futures func_to_call args kwargs iterable_input w) pre fut ys e
           ∧ fut_outcome fut = func_to_call inv args kwargs
           ∧ trace (run_parallel func_to_call iterable_input input_desc n_processes
                                 mp_context args kwargs w).1
             = trace w ++ submission_events input_desc n_processes mp_context iterable_input w
                       ++ retrieval_events pre ++ [PoolShutdown]).
Proof.
  intros Hn (bad & Hbad & Hraises).
  destruct (decide (n_processes = 1)) as [->|Hn1].
  - destruct (all_return_or_first_raise (λ inv, func_to_call inv args kwargs) iterable_input)
      as [[ys Hall]|(pre & x & ys & e & Hfirst)].
    { destruct (raises_not_returns _ Hraises).
      exact (all_return_elem (λ inv, func_to_call inv args kwargs) _ _ bad Hall Hbad). }
    exists e, x. rewrite (run_parallel_serial_raises _ _ _ _ _ _ pre x ys e) by done.
    cbn [fst snd]. split_and!.
    + done.
    + by eapply first_raise_elem.
    + apply Hfirst.
    + intros _. exists pre, ys. split; [done|].
      rewrite trace_record, calls_app. f_equal.
      change (calls (ticked (λ inv, [Call inv]) input_desc pre ++ [Call x]) = pre ++ [x]).
      rewrite calls_app, calls_ticked. f_equal. apply bind_singleton.
    + lia.
  - destruct (all_return_or_first_raise fut_outcome
                (completed_futures func_to_call args kwargs iterable_input w))
      as [[ys Hall]|(pre & fut & ys & e & Hfirst)].
    { destruct (raises_not_returns _ Hraises).
      apply (all_return_elem fut_outcome _ _ (Fut (func_to_call bad args kwargs)) Hall).
      rewrite completed_futures_perm. unfold futures_of.
      apply list_elem_of_fmap. by exists bad. }
    destruct (completed_future_origin func_to_call args kwargs iterable_input w fut)
      as (inv & Hinv & Hfut); [by eapply first_raise_elem|].
    exists e, inv.
    rewrite (run_parallel_pool_raises _ _ _ _ _ _ _ pre fut ys e) by (done || lia).
    cbn [fst snd]. split_and!.
    + done.
    + done.
    + rewrite <- Hfut. apply Hfirst.
    + done.
    + intros _. exists pre, fut, ys. split_and!; [done|done|].
      by rewrite trace_record.
Qed.

(** The spec's end-to-end example: [lambda v: v+1] over [[1, 2, "x"]]
    raises the [TypeError] of the string item, serially and in parallel. *)
Lemma run_parallel_propagates_exception_witness :
  (∃ e, (run_parallel add_one [PyInt 1; PyInt 2; PyStr "x"] "add" 1 None tt tt
                      (posix_host [])).2 = Raise e
        ∧ add_one (PyStr "x") tt tt = Raise e)
  ∧ (∃ e, (run_parallel add_one [PyInt 1; PyInt 2; PyStr "x"] "add" 2 None tt tt
                        (posix_host [1%nat])).2 = Raise e
          ∧ add_one (PyStr "x") tt tt = Raise e).
Proof.
  assert (∃ inv, inv ∈ [PyInt 1; PyInt 2; PyStr "x"] ∧ raises (add_one inv tt tt)) as Hbad.
  { exists (PyStr "x"). split; [|by eexists].
    apply list_elem_of_In. right. right. left. reflexivity. }
  split.
  - destruct (run_parallel_propagates_exception add_one [PyInt 1; PyInt 2; PyStr "x"]
                "add" 1 None tt tt (posix_host []) ltac:(lia) Hbad)
      as (e & inv & Hrun & _). exists e. split; [exact Hrun|].
    vm_compute in Hrun. injection Hrun as <-. reflexivity.
  - destruct (run_parallel_propagates_exception add_one [PyInt 1; PyInt 2; PyStr "x"]
                "add" 2 None tt tt (posix_host [1%nat]) ltac:(lia) Hbad)
      as (e & inv & Hrun & _). exists e. split; [exact Hrun|].
    vm_compute in Hrun. injection Hrun as <-. reflexivity.
Defined.

(** C3. With [n_processes > 1], when the callable fails on no item,
    [run_parallel] returns a collection of the length of the input that
    is, as a multiset, the collection the serial path
    ([n_processes == 1]) returns on the same callable, inputs and extra
    arguments; its entries are the serial results in completion order,
    which need not be the input order: with three doubled items of which
    the last completes first, the result is [(6,2,4)]. *)
Theorem run_parallel_pool_multiset :
  (∀ (U T A K : Type) (func_to_call : U → A → K → outcome T)
     (iterable_input : list U) (input_desc : string) (n_processes : Z)
     (mp_context mp_context' : option BaseContext) (args : A) (kwargs : K)
     (w w' : world U),
     1 < n_processes →
     (∀ inv, inv ∈ iterable_input → returns (func_to_call inv args kwargs)) →
     ∃ par ser,
       (run_parallel func_to_call iterable_input input_desc n_processes
                     mp_context args kwargs w).2 = Return par
       ∧ (run_parallel func_to_call iterable_input input_desc 1
                       mp_context' args kwargs w').2 = Return ser
       ∧ length par = length iterable_input
       ∧ par ≡ₚ ser
       ∧ par = completion_order (length ser) (completion w) ser)
  ∧ (run_parallel double [1; 2; 3] "double" 2 None tt tt (posix_host [2%nat])).2
    = Return [6; 2; 4].
Proof.
  split; [|reflexivity].
  intros U T A K func_to_call xs desc n mp_context mp_context' args kwargs w w' Hn Hok.
  destruct (all_return_intro (λ inv, func_to_call inv args kwargs) xs Hok) as [ys Hall].
  pose proof (all_return_length _ _ _ Hall) as Hlen.
  exists (completion_order (length xs) (completion w) ys), ys.
  rewrite (run_parallel_pool_returns _ _ _ _ _ _ _
             (completion_order (length xs) (completion w) ys))
    by (lia || by apply completed_futures_all_return).
  rewrite (run_parallel_serial_returns _ _ _ _ _ _ ys) by done.
  cbn [fst snd]. rewrite <- Hlen. split_and!; try done.
  - apply completion_order_length.
  - apply completion_order_perm.
Qed.

Lemma run_parallel_pool_multiset_witness :
  ∃ par,
    (run_parallel add_one [PyInt 1; PyInt 2] "add" 3 None tt tt (windows_host [1%nat])).2
      = Return par
    ∧ par ≡ₚ [PyInt 2; PyInt 3].
Proof.
  destruct (proj1 run_parallel_pool_multiset pyval pyval unit unit add_one
              [PyInt 1; PyInt 2] "add" 3 None None tt tt
              (windows_host [1%nat]) (windows_host []))
    as (par & ser & Hpar & Hser & _ & Hperm & _).
  - lia.
  - intros inv Hinv. apply list_elem_of_In in Hinv.
    destruct Hinv as [<-|[<-|[]]]; eexists; reflexivity.
  - exists par. split; [exact Hpar|].
    vm_compute in Hser. injection Hser as <-. exact Hperm.
Defined.

(** C5. For a call with [n_processes > 1]: a context supplied
    explicitly is the one the pool is created with, and nothing is
    looked up; with none supplied the runner first asks for the fork
    context, takes it when the host has it, and otherwise takes the
    platform default; the selection returns a context on every host and
    for every argument; and on a host without fork the call has the
    very outcome it has with an explicitly supplied context, its pool
    having been created with the platform default, and returns the
    results of the callable (in some order) when the callable fails on
    no item. *)
Theorem context_selection_never_raises {U T A K : Type}
    (func_to_call : U → A → K → outcome T) (iterable_input : list U)
    (input_desc : string) (n_processes : Z) (mp_context : option BaseContext)
    (args : A) (kwargs : K) (w : world U) :
  1 < n_processes →
  (∀ c, select_context (Some c) w = (w, Return c))
  ∧ (fork_available w = true →
       select_context None w = (record [GetContext (Some "fork")] w, Return ForkContext))
  ∧ (fork_available w = false →
       select_context None w
       = (record [GetContext (Some "fork"); GetContext None] w, Return (default_context w)))
  ∧ returns (select_context mp_context w).2
  ∧ (∃ rest,
       trace (run_parallel func_to_call iterable_input input_desc n_processes
                           mp_context args kwargs w).1
       = trace w ++ selection_events mp_context w
         ++ [LogInfo ("Submitting " +:+ input_desc +:+ " to " +:+ pretty n_processes
                      +:+ " parallel processes");
             PoolCreate n_processes (selected_context mp_context w)] ++ rest)
  ∧ (fork_available w = false →
       selected_context None w = default_context w
       ∧ (∀ c, (run_parallel func_to_call iterable_input input_desc n_processes
                             None args kwargs w).2
               = (run_parallel func_to_call iterable_input input_desc n_processes
                               (Some c) args kwargs w).2)
       ∧ (∀ ys, all_return (λ inv, func_to_call inv args kwargs) iterable_input ys →
            ∃ res, (run_parallel func_to_call iterable_input input_desc n_processes
                                 None args kwargs w).2 = Return res
                   ∧ res ≡ₚ ys)).
Proof.
  intros Hn.
  assert (∀ mp, ∃ r rest,
            run_parallel func_to_call iterable_input input_desc n_processes mp args kwargs w
            = (record (submission_events input_desc n_processes mp iterable_input w ++ rest) w,
               r)
            ∧ ∀ mp', (run_parallel func_to_call iterable_input input_desc n_processes
                                   mp' args kwargs w).2 = r) as Hrun.
  { intros mp.
    destruct (all_return_or_first_raise fut_outcome
                (completed_futures func_to_call args kwargs iterable_input w))
      as [[ys Hall]|(pre & fut & ys & e & Hfirst)].
    - exists (Return ys). eexists. split.
      + apply run_parallel_pool_returns; [lia|lia|done].
      + intros mp'. by rewrite (run_parallel_pool_returns _ _ _ _ _ _ _ ys) by (lia || done).
    - exists (Raise e). eexists. split.
      + eapply run_parallel_pool_raises; [lia|lia|done].
      + intros mp'.
        by rewrite (run_parallel_pool_raises _ _ _ _ _ _ _ pre fut ys e) by (lia || done). }
  split_and!.
  - intros c. rewrite select_context_run. cbn. by rewrite record_nil.
  - intros Hf. rewrite select_context_run. cbn. by rewrite Hf.
  - intros Hf. rewrite select_context_run. cbn. by rewrite Hf.
  - rewrite select_context_run. by eexists.
  - destruct (Hrun mp_context) as (r & rest & -> & _). cbn [fst].
    rewrite trace_record. unfold submission_events. eexists.
    by rewrite <- !app_assoc.
  - intros Hf. split_and!; [cbn; by rewrite Hf| |].
    + intros c. destruct (Hrun None) as (r & _ & _ & Hr). by rewrite !Hr.
    + intros ys Hall. eexists.
      rewrite (run_parallel_pool_returns _ _ _ _ _ _ _
                 (completion_order (length iterable_input) (completion w) ys))
        by (lia || by apply completed_futures_all_return).
      split; [done|].
      rewrite <- (all_return_length _ _ _ Hall). apply completion_order_perm.
Qed.

Lemma context_selection_never_raises_witness :
  select_context (U:=Z) None (windows_host [])
  = (record [GetContext (Some "fork"); GetContext None] (windows_host []),
     Return SpawnContext)
  ∧ (run_parallel double [1; 2; 3] "double" 2 None tt tt (windows_host [])).2
    = (run_parallel double [1; 2; 3] "double" 2 (Some ForkContext) tt tt (windows_host [])).2.
Proof.
  destruct (context_selection_never_raises double [1; 2; 3] "double" 2 None tt tt
              (windows_host []) ltac:(lia))
    as (_ & _ & Hfallback & _ & _ & Hsame).
  split.
  - apply Hfallback. reflexivity.
  - apply (Hsame eq_refl).
Defined.

(** Whatever the tasks do, a pool that could be created is used and
    shut down: the run records the submissions, the retrievals of the
    outcomes that came before the first failure (all of them when there
    is none), and the shutdown. *)
Lemma run_parallel_pool_run {U T A K : Type}
    (func_to_call : U → A → K → outcome T) (xs : list U)
    (desc : string) (n : Z) (mp_context : option BaseContext)
    (args : A) (kwargs : K) (w : world U) :
  n ≠ 1 → 0 < n →
  ∃ (retrieved : list (Future T)) r,
    run_parallel func_to_call xs desc n mp_context args kwargs w
    = (record (submission_events desc n mp_context xs w
               ++ retrieval_events retrieved ++ [PoolShutdown]) w, r).
Proof.
  intros Hn1 Hn.
  destruct (all_return_or_first_raise fut_outcome
              (completed_futures func_to_call args kwargs xs w))
    as [[ys Hall]|(pre & fut & ys & e & Hfirst)].
  - eexists _, (Return ys). by apply run_parallel_pool_returns.
  - eexists pre, (Raise e). by eapply run_parallel_pool_raises.
Qed.

(** C6. In parallel mode ([n_processes > 1]) the pool lives within the
    call: on every run, whether the call returns or raises, what the
    call records is the context selection and the log line, then the
    creation of the pool with [n_processes] workers and the selected
    context, then submissions and retrievals, and last the shutdown of
    the pool; there is no other creation or shutdown, and every task is
    submitted between the two. *)
Theorem pool_is_call_scoped {U T A K : Type}
    (func_to_call : U → A → K → outcome T) (iterable_input : list U)
    (input_desc : string) (n_processes : Z) (mp_context : option BaseContext)
    (args : A) (kwargs : K) (w : world U) :
  1 < n_processes →
  ∃ before during,
    trace (run_parallel func_to_call iterable_input input_desc n_processes
                        mp_context args kwargs w).1
    = trace w ++ before
      ++ [PoolCreate n_processes (selected_context mp_context w)]
      ++ during ++ [PoolShutdown]
    ∧ before = selection_events mp_context w
               ++ [LogInfo ("Submitting " +:+ input_desc +:+ " to "
                            +:+ pretty n_processes +:+ " parallel processes")]
    ∧ Forall (λ e, is_pool_event e = false) before
    ∧ Forall (λ e, is_pool_event e = false) during
    ∧ submitted during = iterable_input.
Proof.
  intros Hn.
  destruct (run_parallel_pool_run func_to_call iterable_input input_desc n_processes
              mp_context args kwargs w) as (retrieved & r & ->); [lia|lia|].
  cbn [fst]. rewrite trace_record. unfold submission_events.
  exists (selection_events mp_context w
          ++ [LogInfo ("Submitting " +:+ input_desc +:+ " to "
                       +:+ pretty n_processes +:+ " parallel processes")]),
         (ticked (λ inv, [Submit inv]) ("Submitting " +:+ input_desc +:+ " to queue")
                 iterable_input ++ retrieval_events retrieved).
  split_and!.
  - rewrite <- !app_assoc. reflexivity.
  - reflexivity.
  - apply Forall_app. split; [apply no_pool_event_selection|].
    apply Forall_cons. split; [reflexivity|apply Forall_nil_2].
  - apply Forall_app. split; apply no_pool_event_ticked; intros ?.
    + apply Forall_cons. split; [reflexivity|apply Forall_nil_2].
    + apply Forall_nil_2.
  - rewrite submitted_app, submitted_retrieval, app_nil_r, submitted_ticked.
    apply bind_singleton.
Qed.

(** A task fails: the call raises, and the pool was shut down last. *)
Lemma pool_is_call_scoped_witness :
  (run_parallel add_one [PyInt 1; PyStr "x"] "add" 2 (Some SpawnContext) tt tt
                (posix_host [])).2
  = Raise (TypeError "can only concatenate str (not 'int') to str")
  ∧ last (trace (run_parallel add_one [PyInt 1; PyStr "x"] "add" 2 (Some SpawnContext) tt tt
                              (posix_host [])).1) = Some PoolShutdown.
Proof.
  split; [reflexivity|].
  destruct (pool_is_call_scoped add_one [PyInt 1; PyStr "x"] "add" 2 (Some SpawnContext)
              tt tt (posix_host []) ltac:(lia)) as (before & during & -> & _).
  rewrite !app_assoc. apply last_snoc.
Defined.

(** C8. [run_parallel] branches on [n_processes] being exactly [1]: for
    every other value, zero and the negative ones included, it takes the
    pool path (context selection, the log line of the submission, the
    construction of the pool with [n_processes] workers) and never calls
    the callable in the calling process; with [n_processes] not positive
    the construction of the pool fails, and the call raises the
    [ValueError] of the constructor, whatever the input. *)
Theorem run_parallel_branches_on_exactly_one {U T A K : Type}
    (func_to_call : U → A → K → outcome T) (iterable_input : list U)
    (input_desc : string) (n_processes : Z) (mp_context : option BaseContext)
    (args : A) (kwargs : K) (w : world U) :
  n_processes ≠ 1 →
  (∃ rest,
     trace (run_parallel func_to_call iterable_input input_desc n_processes
                         mp_context args kwargs w).1
     = trace w ++ selection_events mp_context w
       ++ [LogInfo ("Submitting " +:+ input_desc +:+ " to " +:+ pretty n_processes
                    +:+ " parallel processes")] ++ rest)
  ∧ calls (trace (run_parallel func_to_call iterable_input input_desc n_processes
                               mp_context args kwargs w).1) = calls (trace w)
  ∧ (0 < n_processes →
       PoolCreate n_processes (selected_context mp_context w)
       ∈ trace (run_parallel func_to_call iterable_input input_desc n_processes
                             mp_context args kwargs w).1)
  ∧ (n_processes ≤ 0 →
       run_parallel func_to_call iterable_input input_desc n_processes
                    mp_context args kwargs w
       = (record (selection_events mp_context w
                  ++ [LogInfo ("Submitting " +:+ input_desc +:+ " to "
                               +:+ pretty n_processes +:+ " parallel processes")]) w,
          Raise (ValueError "max_workers must be greater than 0"))).
Proof.
  intros Hn1. destruct (decide (n_processes ≤ 0)) as [Hn|Hn].
  - rewrite run_parallel_pool_refused by done. cbn [fst snd]. rewrite trace_record.
    split_and!.
    + exists []. by rewrite app_nil_r.
    + rewrite !calls_app, calls_selection. cbn. by rewrite app_nil_r.
    + lia.
    + done.
  - destruct (run_parallel_pool_run func_to_call iterable_input input_desc n_processes
                mp_context args kwargs w) as (retrieved & r & ->); [done|lia|].
    cbn [fst snd]. rewrite trace_record. split_and!.
    + unfold submission_events.
      exists (PoolCreate n_processes (selected_context mp_context w)
              :: ticked (λ inv, [Submit inv]) ("Submitting " +:+ input_desc +:+ " to queue")
                        iterable_input
              ++ retrieval_events retrieved ++ [PoolShutdown]).
      rewrite <- !app_assoc. reflexivity.
    + rewrite !calls_app, calls_submission, calls_retrieval. cbn. by rewrite app_nil_r.
    + intros _. unfold submission_events.
      apply elem_of_app. right. apply elem_of_app. left.
      apply elem_of_app. right. apply elem_of_app. left. apply list_elem_of_In. right. by left.
    + lia.
Qed.

(** With [n_processes = 0] the three doubled items are not processed
    serially: the call raises. *)
Lemma run_parallel_branches_on_exactly_one_witness :
  (run_parallel double [1; 2; 3] "double" 0 None tt tt (posix_host [])).2
  = Raise (ValueError "max_workers must be greater than 0")
  ∧ (run_parallel double [1; 2; 3] "double" (-2) None tt tt (posix_host [])).2
    = Raise (ValueError "max_workers must be greater than 0").
Proof.
  split.
  - destruct (run_parallel_branches_on_exactly_one double [1; 2; 3] "double" 0 None tt tt
                (posix_host []) ltac:(lia)) as (_ & _ & _ & Hrefused).
    rewrite Hrefused by lia. reflexivity.
  - destruct (run_parallel_branches_on_exactly_one double [1; 2; 3] "double" (-2) None tt tt
                (posix_host []) ltac:(lia)) as (_ & _ & _ & Hrefused).
    rewrite Hrefused by lia. reflexivity.
Defined.

(** * Facts about the guard *)

Section GuardFacts.
Context {V D : Type} `{EqDecision V}.
Implicit Types (indf : DataFrame V D) (row : list V).

Lemma filter_agree {X} (P Q : X → Prop) `{∀ x, Decision (P x)} `{∀ x, Decision (Q x)}
    (l : list X) :
  (∀ x, x ∈ l → P x ↔ Q x) → filter P l = filter Q l.
Proof.
  induction l as [|x l IH]; intros HPQ; [done|].
  rewrite !filter_cons. rewrite IH by (intros y Hy; apply HPQ; by right).
  destruct (decide (P x)) as [HP|HP], (decide (Q x)) as [HQ|HQ]; try done.
  - destruct HQ. apply HPQ; [by left|done].
  - destruct HP. apply HPQ; [by left|done].
Qed.

(** The columns the code computes through a set difference name the
    levels other than [variable] and [unit]. *)
Lemma non_v_u_cols_spec (nms : list string) (n : string) :
  n ∈ nms →
  n ∈ elements ((list_to_set nms : gset string) ∖ list_to_set ["variable"; "unit"])
  ↔ n ≠ "variable" ∧ n ≠ "unit".
Proof.
  intros Hn. rewrite elem_of_elements, elem_of_difference, !elem_of_list_to_set.
  rewrite !elem_of_cons, elem_of_nil. tauto.
Qed.

Lemma project_other_labels indf row :
  project (names (index indf))
          (elements ((list_to_set (names (index indf)) : gset string)
                     ∖ list_to_set ["variable"; "unit"])) row
  = other_labels indf row.
Proof.
  unfold project, other_labels. f_equal. apply filter_agree.
  intros [n v] Hnv. cbn. apply non_v_u_cols_spec. by eapply elem_of_zip_l.
Qed.

Lemma pix_unique_non_v_u_cols indf :
  pix_unique indf (elements ((list_to_set (names (index indf)) : gset string)
                             ∖ list_to_set ["variable"; "unit"]))
  = MkIndex (other_levels indf) (combinations indf).
Proof.
  unfold pix_unique, other_levels, combinations. f_equal.
  - apply filter_agree. intros n Hn. by apply non_v_u_cols_spec.
  - f_equal. apply list_fmap_ext. intros _ row _. apply project_other_labels.
Qed.

(** What a run of the guard amounts to. *)
Lemma guard_run (repr : MultiIndex V → string) indf :
  assert_only_working_on_variable_unit_variations repr indf
  = (indf,
     if decide (1 < length (combinations indf))%nat
     then Raise (AssertionError ("variations_in_other_cols="
                                 +:+ repr (MkIndex (other_levels indf) (combinations indf))))
     else Return tt).
Proof.
  unfold assert_only_working_on_variable_unit_variations, bind, read.
  rewrite pix_unique_non_v_u_cols. unfold shape0. cbn [tuples].
  by destruct (decide (1 < length (combinations indf))%nat).
Qed.

(** More than one distinct element: two elements that differ. *)
Lemma several_distinct {X} `{EqDecision X} (l : list X) :
  (1 < length (remove_dups l))%nat ↔ ∃ a b, a ∈ l ∧ b ∈ l ∧ a ≠ b.
Proof.
  pose proof (NoDup_remove_dups l) as Hnd.
  split.
  - destruct (remove_dups l) as [|a [|b rest]] eqn:Hl; cbn; [lia|lia|]. intros _.
    exists a, b. split_and!.
    + apply elem_of_remove_dups. rewrite Hl. by left.
    + apply elem_of_remove_dups. rewrite Hl. right. by left.
    + intros ->. apply NoDup_cons in Hnd as [Hnotin _]. apply Hnotin. by left.
  - intros (a & b & Ha & Hb & Hab).
    apply elem_of_remove_dups in Ha, Hb.
    destruct (remove_dups l) as [|c [|d rest]]; cbn; [|exfalso|lia].
    + by apply elem_of_nil in Ha.
    + apply list_elem_of_singleton in Ha, Hb. congruence.
Qed.

Lemma combinations_spec indf (c : list V) :
  c ∈ combinations indf ↔ ∃ row, row ∈ tuples (index indf) ∧ c = other_labels indf row.
Proof.
  unfold combinations. rewrite elem_of_remove_dups, list_elem_of_fmap.
  split; intros (row & ? & ?); by exists row.
Qed.

End GuardFacts.

(** * The guard's properties *)

(** C4. The guard raises, and then an [AssertionError], exactly when the
    distinct joint value-combinations of the index levels other than
    [variable] and [unit] number more than one, that is when two rows
    differ on those levels; the error's text renders the index of all
    the observed combinations; with at most one combination the guard
    returns.  A table with the two models [model_a] and [model_b] raises
    an error that reports both; a table that varies in [variable] and
    [unit] only passes. *)
Theorem guard_raises_iff_several_combinations :
  (∀ (V D : Type) (Heq : EqDecision V) (repr : MultiIndex V → string)
     (indf : DataFrame V D),
     (raises (assert_only_working_on_variable_unit_variations repr indf).2
      ↔ (1 < length (combinations indf))%nat)
     ∧ (raises (assert_only_working_on_variable_unit_variations repr indf).2
        ↔ ∃ row1 row2, row1 ∈ tuples (index indf) ∧ row2 ∈ tuples (index indf)
                       ∧ other_labels indf row1 ≠ other_labels indf row2)
     ∧ ((length (combinations indf) ≤ 1)%nat
        ↔ (assert_only_working_on_variable_unit_variations repr indf).2 = Return tt)
     ∧ (∀ e, (assert_only_working_on_variable_unit_variations repr indf).2 = Raise e →
          ∃ reported,
            e = AssertionError ("variations_in_other_cols=" +:+ repr reported)
            ∧ names reported = other_levels indf
            ∧ ∀ c, c ∈ tuples reported
                   ↔ ∃ row, row ∈ tuples (index indf) ∧ c = other_labels indf row))
  ∧ (∀ repr,
       (assert_only_working_on_variable_unit_variations repr two_models).2
       = Raise (AssertionError
                  ("variations_in_other_cols="
                   +:+ repr (MkIndex ["model"; "scenario"]
                                     [["model_a"; "ssp119"]; ["model_b"; "ssp119"]]))))
  ∧ (∀ repr, (assert_only_working_on_variable_unit_variations repr one_group).2 = Return tt).
Proof.
  split_and!.
  - intros V D Heq repr indf. rewrite guard_run. cbn [snd].
    assert ((if decide (1 < length (combinations indf))%nat
             then Raise (AssertionError
                           ("variations_in_other_cols="
                            +:+ repr (MkIndex (other_levels indf) (combinations indf))))
             else Return tt) = Return tt
            ↔ (length (combinations indf) ≤ 1)%nat) as Hret.
    { destruct (decide (1 < length (combinations indf))%nat); split; (done || lia). }
    assert (raises (if decide (1 < length (combinations indf))%nat
                    then Raise (AssertionError
                                  ("variations_in_other_cols="
                                   +:+ repr (MkIndex (other_levels indf) (combinations indf))))
                    else @Return unit tt)
            ↔ (1 < length (combinations indf))%nat) as Hraise.
    { destruct (decide (1 < length (combinations indf))%nat); split; try done.
      - intros _. by eexists.
      - by intros [e ?]. }
    split_and!.
    + exact Hraise.
    + rewrite Hraise. unfold combinations. rewrite several_distinct. split.
      * intros (a & b & (row1 & -> & H1)%list_elem_of_fmap
                      & (row2 & -> & H2)%list_elem_of_fmap & Hab).
        by exists row1, row2.
      * intros (row1 & row2 & H1 & H2 & Hne).
        exists (other_labels indf row1), (other_labels indf row2).
        split_and!; [apply list_elem_of_fmap; by exists row1
                    |apply list_elem_of_fmap; by exists row2|done].
    + by rewrite Hret.
    + intros e He. destruct (decide (1 < length (combinations indf))%nat); [|done].
      injection He as <-. exists (MkIndex (other_levels indf) (combinations indf)).
      split_and!; [done|done|]. intros c. apply combinations_spec.
  - intros repr. by rewrite guard_run.
  - intros repr. by rewrite guard_run.
Qed.

Lemma guard_raises_iff_several_combinations_witness :
  (1 < length (combinations two_models))%nat
  ∧ raises (assert_only_working_on_variable_unit_variations show_index two_models).2
  ∧ ∃ reported,
      (assert_only_working_on_variable_unit_variations show_index two_models).2
      = Raise (AssertionError ("variations_in_other_cols=" +:+ show_index reported))
      ∧ names reported = ["model"; "scenario"].
Proof.
  destruct (proj1 guard_raises_iff_several_combinations string Z _ show_index two_models)
    as (Hraises & _ & _ & Hreport).
  assert (1 < length (combinations two_models))%nat as Hseveral by (vm_compute; lia).
  split_and!.
  - exact Hseveral.
  - apply Hraises. exact Hseveral.
  - destruct (Hreport (AssertionError
                ("variations_in_other_cols=" +:+
                 show_index (MkIndex ["model"; "scenario"]
                                     [["model_a"; "ssp119"]; ["model_b"; "ssp119"]])))
                eq_refl) as (reported & Herr & Hnames & _).
    exists reported. split.
    + rewrite <- Herr. reflexivity.
    + rewrite Hnames. reflexivity.
Defined.

(** C7. The guard is read-only over the table it is handed: after the
    call the table, its index and its contents, is the table it was
    before, when the guard returns and when it raises; and returning or
    raising is all the guard does. *)
Theorem guard_is_read_only {V D : Type} `{EqDecision V}
    (repr : MultiIndex V → string) (indf : DataFrame V D) :
  (assert_only_working_on_variable_unit_variations repr indf).1 = indf
  ∧ ((assert_only_working_on_variable_unit_variations repr indf).2 = Return tt
     ∨ raises (assert_only_working_on_variable_unit_variations repr indf).2).
Proof.
  rewrite guard_run. cbn [fst snd]. split; [done|].
  destruct (decide (1 < length (combinations indf))%nat); [right; by eexists|by left].
Qed.

(** * Further properties of the guard *)

Section GuardMore.
Context {V D : Type} `{EqDecision V}.
Implicit Types (indf : DataFrame V D) (row : list V).

(** The guard returns exactly when all rows carry the same labels
    outside [variable] and [unit]. *)
Lemma guard_returns_iff (repr : MultiIndex V → string) indf :
  (assert_only_working_on_variable_unit_variations repr indf).2 = Return tt
  ↔ ∀ row1 row2, row1 ∈ tuples (index indf) → row2 ∈ tuples (index indf) →
                 other_labels indf row1 = other_labels indf row2.
Proof.
  rewrite guard_run. cbn [snd]. unfold combinations.
  destruct (decide (1 < length (remove_dups (other_labels indf <$> tuples (index indf))))%nat)
    as [Hlt|Hle].
  - split; [done|]. intros Hsame.
    apply several_distinct in Hlt as (a & b & (row1 & -> & H1)%list_elem_of_fmap
                                             & (row2 & -> & H2)%list_elem_of_fmap & Hab).
    destruct Hab. by apply Hsame.
  - split; [|done]. intros _ row1 row2 H1 H2.
    destruct (decide (other_labels indf row1 = other_labels indf row2)) as [|Hne]; [done|].
    destruct Hle. apply several_distinct.
    exists (other_labels indf row1), (other_labels indf row2).
    split_and!; [apply list_elem_of_fmap; by exists row1
                |apply list_elem_of_fmap; by exists row2|done].
Qed.

Lemma other_labels_names (a b : DataFrame V D) row :
  names (index a) = names (index b) → other_labels a row = other_labels b row.
Proof. unfold other_labels. by intros ->. Qed.

End GuardMore.

(** X1. A table with no row, or with a single row, passes the guard,
    whatever its levels and labels. *)
Theorem guard_passes_at_most_one_row {V D : Type} `{EqDecision V}
    (repr : MultiIndex V → string) (indf : DataFrame V D) :
  (length (tuples (index indf)) ≤ 1)%nat →
  (assert_only_working_on_variable_unit_variations repr indf).2 = Return tt.
Proof.
  intros Hlen. apply guard_returns_iff. intros row1 row2 H1 H2.
  destruct (tuples (index indf)) as [|r [|r' rest]]; cbn in Hlen; [|..|lia].
  - by apply elem_of_nil in H1.
  - apply list_elem_of_singleton in H1, H2. by subst.
Qed.

Lemma guard_passes_at_most_one_row_witness :
  (assert_only_working_on_variable_unit_variations show_index
     (MkFrame (MkIndex ["model"; "variable"] []) ["2015"] ([] : list (list Z)))).2 = Return tt
  ∧ (assert_only_working_on_variable_unit_variations show_index
       (MkFrame (MkIndex ["model"; "variable"] [["model_a"; "Emissions|CO2"]])
                ["2015"] [[1]])).2 = Return tt.
Proof.
  split.
  - apply (guard_passes_at_most_one_row show_index
             (MkFrame (MkIndex ["model"; "variable"] []) ["2015"] ([] : list (list Z)))).
    cbn. lia.
  - apply (guard_passes_at_most_one_row show_index
             (MkFrame (MkIndex ["model"; "variable"] [["model_a"; "Emissions|CO2"]])
                      ["2015"] [[1]])).
    cbn. lia.
Defined.

(** X2. A table made of some of the rows of a table that passes the
    guard (same level names, any data) passes the guard too; so a table
    that fails makes every table that contains its rows fail. *)
Theorem guard_passes_on_subtable {V D : Type} `{EqDecision V}
    (repr : MultiIndex V → string) (whole part : DataFrame V D) :
  names (index part) = names (index whole) →
  tuples (index part) ⊆ tuples (index whole) →
  (assert_only_working_on_variable_unit_variations repr whole).2 = Return tt →
  (assert_only_working_on_variable_unit_variations repr part).2 = Return tt.
Proof.
  intros Hnames Hsub Hwhole. apply guard_returns_iff. intros row1 row2 H1 H2.
  rewrite !(other_labels_names part whole) by done.
  apply (proj1 (guard_returns_iff repr whole) Hwhole); by apply Hsub.
Qed.

Lemma guard_passes_on_subtable_witness :
  (assert_only_working_on_variable_unit_variations show_index
     (MkFrame (MkIndex ["model"; "scenario"; "variable"; "unit"]
                       [["model_a"; "ssp119"; "Emissions|CH4"; "Mt CH4/yr"]])
              ["2015"] [[20]])).2 = Return tt.
Proof.
  apply (guard_passes_on_subtable show_index one_group).
  - reflexivity.
  - intros row Hrow. apply list_elem_of_singleton in Hrow as ->.
    apply list_elem_of_In. right. left. reflexivity.
  - reflexivity.
Defined.

(** X3. The guard looks at the levels other than [variable] and [unit]
    only: two tables with the same level names whose rows agree, one by
    one, on those levels get the same outcome (the same error text
    included), however their [variable] and [unit] labels, their columns
    and their values differ. *)
Theorem guard_sees_other_levels_only {V D : Type} `{EqDecision V}
    (repr : MultiIndex V → string) (a b : DataFrame V D) :
  names (index a) = names (index b) →
  Forall2 (λ row1 row2, other_labels a row1 = other_labels b row2)
          (tuples (index a)) (tuples (index b)) →
  (assert_only_working_on_variable_unit_variations repr a).2
  = (assert_only_working_on_variable_unit_variations repr b).2.
Proof.
  intros Hnames Hrows. rewrite !guard_run. cbn [snd].
  assert (combinations a = combinations b) as ->.
  { unfold combinations. f_equal.
    induction Hrows as [|r1 r2 l1 l2 Hr _ IH]; [done|]. cbn. by rewrite Hr, IH. }
  assert (other_levels a = other_levels b) as ->; [|done].
  unfold other_levels. by rewrite Hnames.
Qed.

Lemma guard_sees_other_levels_only_witness :
  (assert_only_working_on_variable_unit_variations show_index two_models).2
  = (assert_only_working_on_variable_unit_variations show_index
       (MkFrame (MkIndex ["model"; "scenario"; "variable"; "unit"]
                         [["model_a"; "ssp119"; "Emissions|BC"; "Mt BC/yr"];
                          ["model_b"; "ssp119"; "Emissions|OC"; "Mt OC/yr"]])
                ["1990"] [[0]; [7]])).2.
Proof.
  apply (guard_sees_other_levels_only show_index two_models).
  - reflexivity.
  - repeat constructor.
Defined.

(** * Further properties of the runner *)

Section RunnerMore.
Context {U T A K : Type}.
Implicit Types (w : world U) (func_to_call : U → A → K → outcome T).

Lemma serial_events_ticked desc (xs : list U) :
  Forall (λ e, is_serial_event e = true) (ticked (λ inv, [Call inv]) desc xs).
Proof.
  induction xs as [|x xs IH]; [constructor|].
  rewrite ticked_cons. cbn. by repeat constructor.
Qed.

Lemma completion_order_in_order {X} (l : list X) : completion_order (length l) [] l = l.
Proof.
  induction l as [|x l IH]; [done|].
  cbn [completion_order length]. change (default 0%nat (head [])) with 0%nat.
  rewrite Nat.Div0.mod_0_l. cbn [lookup list_lookup delete list_delete tail].
  by rewrite IH.
Qed.

Lemma completion_order_singleton {X} picks (x : X) : completion_order 1 picks [x] = [x].
Proof.
  cbn [completion_order length]. rewrite Nat.mod_1_r. done.
Qed.

Lemma first_raise_app_l {X Y} (out : X → outcome Y) xs1 xs2 pre x ys e :
  first_raise out xs1 pre x ys e → first_raise out (xs1 ++ xs2) pre x ys e.
Proof.
  intros ([post ->] & Hall & Hx). split_and!; [|done|done].
  exists (post ++ xs2). by rewrite <- app_assoc.
Qed.

Lemma first_raise_app_r {X Y} (out : X → outcome Y) xs1 ys1 xs2 pre x ys e :
  all_return out xs1 ys1 →
  first_raise out xs2 pre x ys e →
  first_raise out (xs1 ++ xs2) (xs1 ++ pre) x (ys1 ++ ys) e.
Proof.
  intros Hall1 ([post ->] & Hall & Hx). split_and!; [|by apply Forall2_app|done].
  exists post. by rewrite <- app_assoc.
Qed.

Lemma first_raise_futures func_to_call args kwargs xs pre x ys e :
  first_raise (λ inv, func_to_call inv args kwargs) xs pre x ys e →
  first_raise fut_outcome (futures_of func_to_call args kwargs xs)
              (futures_of func_to_call args kwargs pre)
              (Fut (func_to_call x args kwargs)) ys e.
Proof.
  intros ([post ->] & Hall & Hx). split_and!; [| |done].
  - exists (futures_of func_to_call args kwargs post). unfold futures_of.
    by rewrite fmap_app.
  - unfold futures_of. by apply Forall2_fmap_l.
Qed.

End RunnerMore.

(** X4. With [n_processes == 1] nothing but the serial work is recorded,
    whether the call returns or raises: the log line, the calls and the
    ticks of the progress bar; no context is looked up, no pool is
    created, nothing is submitted. *)
Theorem serial_path_never_touches_the_pool {U T A K : Type}
    (func_to_call : U → A → K → outcome T) (iterable_input : list U)
    (input_desc : string) (mp_context : option BaseContext)
    (args : A) (kwargs : K) (w : world U) :
  ∃ new,
    trace (run_parallel func_to_call iterable_input input_desc 1
                        mp_context args kwargs w).1 = trace w ++ new
    ∧ Forall (λ e, is_serial_event e = true) new
    ∧ submitted new = [].
Proof.
  destruct (all_return_or_first_raise (λ inv, func_to_call inv args kwargs) iterable_input)
    as [[ys Hall]|(pre & x & ys & e & Hfirst)].
  - rewrite (run_parallel_serial_returns _ _ _ _ _ _ ys) by done. cbn [fst].
    eexists. split_and!; [apply trace_record| |].
    + constructor; [done|]. apply serial_events_ticked.
    + change (submitted (ticked (λ inv, [Call inv]) input_desc iterable_input) = []).
      rewrite submitted_ticked. apply bind_nothing.
  - rewrite (run_parallel_serial_raises _ _ _ _ _ _ pre x ys e) by done. cbn [fst].
    eexists. split_and!; [apply trace_record| |].
    + constructor; [done|]. apply Forall_app. split; [apply serial_events_ticked|].
      by repeat constructor.
    + change (submitted (ticked (λ inv, [Call inv]) input_desc pre ++ [Call x]) = []).
      rewrite submitted_app, submitted_ticked. cbn. rewrite app_nil_r. apply bind_nothing.
Qed.

(** X5. When the tasks of the pool complete in the order they were
    submitted, the pool path ([n_processes > 1]) has the very outcome of
    the serial path: the same results in the same order, or the same
    exception. *)
Theorem pool_in_submission_order_is_serial {U T A K : Type}
    (func_to_call : U → A → K → outcome T) (iterable_input : list U)
    (input_desc : string) (n_processes : Z) (mp_context mp_context' : option BaseContext)
    (args : A) (kwargs : K) (w w' : world U) :
  1 < n_processes →
  completed_futures func_to_call args kwargs iterable_input w
  = futures_of func_to_call args kwargs iterable_input →
  (run_parallel func_to_call iterable_input input_desc n_processes
                mp_context args kwargs w).2
  = (run_parallel func_to_call iterable_input input_desc 1
                  mp_context' args kwargs w').2.
Proof.
  intros Hn Horder.
  destruct (all_return_or_first_raise (λ inv, func_to_call inv args kwargs) iterable_input)
    as [[ys Hall]|(pre & x & ys & e & Hfirst)].
  - rewrite (run_parallel_serial_returns _ _ _ _ _ _ ys) by done.
    rewrite (run_parallel_pool_returns _ _ _ _ _ _ _ ys); [done|lia|lia|].
    rewrite Horder. unfold futures_of. by apply Forall2_fmap_l.
  - rewrite (run_parallel_serial_raises _ _ _ _ _ _ pre x ys e) by done.
    rewrite (run_parallel_pool_raises _ _ _ _ _ _ _
               (futures_of func_to_call args kwargs pre)
               (Fut (func_to_call x args kwargs)) ys e); [done|lia|lia|].
    rewrite Horder. by apply first_raise_futures.
Qed.

Lemma pool_in_submission_order_is_serial_witness :
  (run_parallel add_one [PyInt 1; PyStr "x"; PyInt 3] "add" 2 None tt tt (posix_host [])).2
  = (run_parallel add_one [PyInt 1; PyStr "x"; PyInt 3] "add" 1 None tt tt (posix_host [])).2
  ∧ (run_parallel double [1; 2; 3] "double" 5 None tt tt (posix_host [])).2
    = Return [2; 4; 6].
Proof.
  split.
  - apply (pool_in_submission_order_is_serial add_one [PyInt 1; PyStr "x"; PyInt 3] "add" 2
             None None tt tt (posix_host []) (posix_host [])); [lia|reflexivity].
  - rewrite (pool_in_submission_order_is_serial double [1; 2; 3] "double" 5
               None None tt tt (posix_host []) (posix_host [])); [reflexivity|lia|reflexivity].
Defined.

(** X6. With a single work item the mode and the completion order do
    not matter: for every [n_processes >= 1] the call returns the
    one-element tuple of the callable's result, or raises the callable's
    exception. *)
Theorem run_parallel_single_item {U T A K : Type}
    (func_to_call : U → A → K → outcome T) (inv : U)
    (input_desc : string) (n_processes : Z) (mp_context : option BaseContext)
    (args : A) (kwargs : K) (w : world U) :
  1 ≤ n_processes →
  (run_parallel func_to_call [inv] input_desc n_processes mp_context args kwargs w).2
  = match func_to_call inv args kwargs with
    | Return v => Return [v]
    | Raise e => Raise e
    end.
Proof.
  intros Hn. destruct (decide (n_processes = 1)) as [->|Hn1].
  - destruct (func_to_call inv args kwargs) as [v|e] eqn:Hinv.
    + rewrite (run_parallel_serial_returns _ _ _ _ _ _ [v]); [done|].
      unfold all_return. by repeat constructor.
    + rewrite (run_parallel_serial_raises _ _ _ _ _ _ [] inv [] e); [done|].
      split_and!; [by exists []|constructor|done].
  - assert (completed_futures func_to_call args kwargs [inv] w
            = [Fut (func_to_call inv args kwargs)]) as Hdone
      by apply completion_order_singleton.
    destruct (func_to_call inv args kwargs) as [v|e] eqn:Hinv.
    + rewrite (run_parallel_pool_returns _ _ _ _ _ _ _ [v]); [done|done|lia|].
      rewrite Hdone. unfold all_return. by repeat constructor.
    + rewrite (run_parallel_pool_raises _ _ _ _ _ _ _ [] (Fut (Raise e)) [] e);
        [done|done|lia|].
      rewrite Hdone. split_and!; [by exists []|constructor|done].
Qed.

Lemma run_parallel_single_item_witness :
  (run_parallel double [21] "double" 8 None tt tt (windows_host [3%nat; 1%nat])).2
  = Return [42].
Proof.
  rewrite (run_parallel_single_item double 21 "double" 8 None tt tt
             (windows_host [3%nat; 1%nat])); [reflexivity|lia].
Defined.

(** X7. The serial path is fail-fast and compositional: the outcome on
    a concatenated input is the exception of the first part when that
    part raises (the second part is then irrelevant), else the exception
    of the second part when it raises, else the results of the first
    part followed by those of the second. *)
Theorem serial_run_of_concatenation {U T A K : Type}
    (func_to_call : U → A → K → outcome T) (input1 input2 : list U)
    (input_desc : string) (mp_context : option BaseContext)
    (args : A) (kwargs : K) (w w1 w2 : world U) :
  (run_parallel func_to_call (input1 ++ input2) input_desc 1 mp_context args kwargs w).2
  = match (run_parallel func_to_call input1 input_desc 1 mp_context args kwargs w1).2 with
    | Raise e => Raise e
    | Return res1 =>
        match (run_parallel func_to_call input2 input_desc 1 mp_context args kwargs w2).2 with
        | Raise e => Raise e
        | Return res2 => Return (res1 ++ res2)
        end
    end.
Proof.
  destruct (all_return_or_first_raise (λ inv, func_to_call inv args kwargs) input1)
    as [[ys1 Hall1]|(pre & x & ys & e & Hfirst)].
  - rewrite (run_parallel_serial_returns _ input1 _ _ _ _ ys1) by done. cbn [snd].
    destruct (all_return_or_first_raise (λ inv, func_to_call inv args kwargs) input2)
      as [[ys2 Hall2]|(pre & x & ys & e & Hfirst)].
    + rewrite (run_parallel_serial_returns _ input2 _ _ _ _ ys2) by done.
      rewrite (run_parallel_serial_returns _ _ _ _ _ _ (ys1 ++ ys2)); [done|].
      by apply Forall2_app.
    + rewrite (run_parallel_serial_raises _ input2 _ _ _ _ pre x ys e) by done.
      rewrite (run_parallel_serial_raises _ _ _ _ _ _ (input1 ++ pre) x (ys1 ++ ys) e);
        [done|]. by apply first_raise_app_r.
  - rewrite (run_parallel_serial_raises _ input1 _ _ _ _ pre x ys e) by done.
    rewrite (run_parallel_serial_raises _ _ _ _ _ _ pre x ys e); [done|].
    by apply first_raise_app_l.
Qed.



(** * Facts about strings and [str.replace] *)

Section StringFacts.
Implicit Types (s old new : string) (c : Ascii.ascii).

Lemma append_nil_l s : "" +:+ s = s.
Proof. reflexivity. Qed.

Lemma append_cons c s1 s2 : String c s1 +:+ s2 = String c (s1 +:+ s2).
Proof. reflexivity. Qed.

Lemma append_nil_r s : s +:+ "" = s.
Proof. induction s as [|c s IH]; [done|]. by rewrite append_cons, IH. Qed.

Lemma append_assoc s1 s2 s3 : (s1 +:+ s2) +:+ s3 = s1 +:+ s2 +:+ s3.
Proof. induction s1 as [|c s1 IH]; [done|]. by rewrite !append_cons, IH. Qed.

Lemma chars_app s1 s2 : chars (s1 +:+ s2) = chars s1 ++ chars s2.
Proof.
  induction s1 as [|c s1 IH]; [done|].
  rewrite append_cons. unfold chars in *. cbn. by rewrite IH.
Qed.

Lemma chars_inj s1 s2 : chars s1 = chars s2 → s1 = s2.
Proof.
  intros Heq. rewrite <- (String.string_of_list_ascii_of_string s1),
                <- (String.string_of_list_ascii_of_string s2).
  unfold chars in Heq. by rewrite Heq.
Qed.

Lemma length_chars s : length (chars s) = String.length s.
Proof. induction s as [|c s IH]; [done|]. unfold chars in *. cbn. by rewrite IH. Qed.

Lemma prefix_nil s : String.prefix "" s = true.
Proof. by destruct s. Qed.

Lemma prefix_true old s : String.prefix old s = true → ∃ post, s = old +:+ post.
Proof.
  revert s. induction old as [|a old IH]; intros s Hp.
  - by exists s.
  - destruct s as [|c s]; [done|]. cbn in Hp.
    destruct (Ascii.ascii_dec a c) as [->|]; [|done].
    destruct (IH s Hp) as [post ->]. by exists post.
Qed.

(** *** One step of the scan *)

Lemma replace_from_skip old new k c s :
  replace_from old new (S k) (String c s) = replace_from old new k s.
Proof. reflexivity. Qed.

Lemma replace_from_keep old new c s :
  String.prefix old (String c s) = false →
  replace_from old new 0 (String c s) = String c (replace_from old new 0 s).
Proof. intros Hp. cbn [replace_from]. by rewrite Hp. Qed.

Lemma replace_from_hit old new c s :
  String.prefix old (String c s) = true →
  replace_from old new 0 (String c s)
  = new +:+ replace_from old new (String.length old - 1) s.
Proof. intros Hp. cbn [replace_from]. by rewrite Hp. Qed.

(** *** Replacing one character by another *)

Lemma chars_replace_char a b s :
  chars (str_replace (String a "") (String b "") s)
  = (λ c, if Ascii.ascii_dec a c then b else c) <$> chars s.
Proof.
  unfold str_replace. induction s as [|c s IH]; [done|].
  destruct (Ascii.ascii_dec a c) as [Hac|Hac] eqn:Hdec.
  - rewrite replace_from_hit by (cbn; rewrite Hdec; apply prefix_nil).
    cbn [String.length Nat.sub]. rewrite append_cons, append_nil_l.
    unfold chars in *. cbn. by rewrite IH, Hdec.
  - rewrite replace_from_keep by (cbn; by rewrite Hdec).
    unfold chars in *. cbn. by rewrite IH, Hdec.
Qed.

Lemma replace_char_app a b s1 s2 :
  str_replace (String a "") (String b "") (s1 +:+ s2)
  = str_replace (String a "") (String b "") s1 +:+ str_replace (String a "") (String b "") s2.
Proof. apply chars_inj. by rewrite chars_app, !chars_replace_char, chars_app, fmap_app. Qed.

Lemma sanitised_app s1 s2 : sanitised (s1 +:+ s2) = sanitised s1 +:+ sanitised s2.
Proof. unfold sanitised. by rewrite !replace_char_app. Qed.

Lemma chars_sanitised s :
  chars (sanitised s)
  = (λ c, if Ascii.ascii_dec " " c then "_"%char else c)
    <$> ((λ c, if Ascii.ascii_dec "/" c then "_"%char else c) <$> chars s).
Proof. unfold sanitised. by rewrite !chars_replace_char. Qed.

Lemma sanitised_clean s c :
  c ∈ chars (sanitised s) → c ≠ "/"%char ∧ c ≠ " "%char.
Proof.
  rewrite chars_sanitised. intros (y & -> & (x & -> & _)%list_elem_of_fmap)%list_elem_of_fmap.
  destruct (ascii_dec "/" x) as [<-|Hx]; cbv beta iota.
  - by destruct (ascii_dec " " "_").
  - destruct (ascii_dec " " x) as [<-|Hx']; [done|]. split; congruence.
Qed.

Lemma sanitised_length s : String.length (sanitised s) = String.length s.
Proof. by rewrite <- !length_chars, chars_sanitised, !length_fmap. Qed.

Lemma sanitised_idemp s : sanitised (sanitised s) = sanitised s.
Proof.
  apply chars_inj. rewrite chars_sanitised.
  pose proof (sanitised_clean s) as Hclean.
  induction (chars (sanitised s)) as [|c l IH]; [done|].
  cbn [fmap list_fmap]. rewrite IH by (intros c' Hc'; apply Hclean; by right).
  destruct (Hclean c) as [Hslash Hspace]; [by left|].
  destruct (ascii_dec "/" c) as [<-|_]; [done|].
  destruct (ascii_dec " " c) as [<-|_]; done.
Qed.

Lemma length_append s1 s2 :
  String.length (s1 +:+ s2) = (String.length s1 + String.length s2)%nat.
Proof. by rewrite <- !length_chars, chars_app, length_app. Qed.

Lemma filename_emissions_shape model scenario :
  filename_emissions model scenario
  = "ar6_scenarios__" +:+ sanitised model +:+ "__" +:+ sanitised scenario
    +:+ "__emissions.csv".
Proof.
  change (filename_emissions model scenario)
    with (sanitised ("ar6_scenarios__" +:+ model +:+ "__" +:+ scenario +:+ "__emissions.csv")).
  by rewrite !sanitised_app.
Qed.

Lemma filename_temperatures_shape model scenario :
  filename_temperatures model scenario
  = "ar6_scenarios__" +:+ sanitised model +:+ "__" +:+ sanitised scenario
    +:+ "__temperatures.csv".
Proof.
  change (filename_temperatures model scenario)
    with (sanitised ("ar6_scenarios__" +:+ model +:+ "__" +:+ scenario
                     +:+ "__temperatures.csv")).
  by rewrite !sanitised_app.
Qed.

End StringFacts.

(** * Properties of the AR6 file names *)

(** X9. Whatever the model and the scenario are called, the names of the
    emissions file and of the temperatures file contain neither a path
    separator [/] nor a space. *)
Theorem ar6_filenames_have_no_separator (model scenario : string) :
  ("/"%char ∉ chars (filename_emissions model scenario))
  ∧ (" "%char ∉ chars (filename_emissions model scenario))
  ∧ ("/"%char ∉ chars (filename_temperatures model scenario))
  ∧ (" "%char ∉ chars (filename_temperatures model scenario)).
Proof.
  split_and!; intros Hin.
  - by destruct (sanitised_clean _ _ Hin).
  - by destruct (sanitised_clean _ _ Hin).
  - by destruct (sanitised_clean _ _ Hin).
  - by destruct (sanitised_clean _ _ Hin).
Qed.

(** X10. The two replacements only touch the model and the scenario: the
    emissions file name is [ar6_scenarios__], the model with every [/]
    and space turned into [_], [__], the scenario treated likewise, and
    [__emissions.csv]; it is 32 characters longer than model and
    scenario together. *)
Theorem ar6_emissions_filename_shape (model scenario : string) :
  filename_emissions model scenario
  = "ar6_scenarios__" +:+ str_replace " " "_" (str_replace "/" "_" model)
    +:+ "__" +:+ str_replace " " "_" (str_replace "/" "_" scenario)
    +:+ "__emissions.csv"
  ∧ String.length (filename_emissions model scenario)
    = (32 + String.length model + String.length scenario)%nat.
Proof.
  rewrite filename_emissions_shape. split; [done|].
  rewrite !length_append, !sanitised_length. cbn [String.length]. lia.
Qed.

(** X11. Model-scenario pairs whose names differ only by [/], space and
    [_] in the same places are loaded from one and the same emissions
    file. *)
Theorem ar6_emissions_filename_collides (model scenario model' scenario' : string) :
  str_replace " " "_" (str_replace "/" "_" model)
  = str_replace " " "_" (str_replace "/" "_" model') →
  str_replace " " "_" (str_replace "/" "_" scenario)
  = str_replace " " "_" (str_replace "/" "_" scenario') →
  filename_emissions model scenario = filename_emissions model' scenario'.
Proof.
  intros Hm Hs. rewrite !filename_emissions_shape. unfold sanitised. by rewrite Hm, Hs.
Qed.

Lemma ar6_emissions_filename_collides_witness :
  filename_emissions "AIM/CGE 2.2" "EN NPi2020" = filename_emissions "AIM_CGE/2.2" "EN_NPi2020".
Proof.
  apply ar6_emissions_filename_collides; reflexivity.
Defined.

(** X12. The emissions file and the temperatures file never have the
    same name, for any two model-scenario pairs. *)
Theorem ar6_emissions_and_temperatures_files_differ
    (model scenario model' scenario' : string) :
  filename_emissions model scenario ≠ filename_temperatures model' scenario'.
Proof.
  rewrite filename_emissions_shape, filename_temperatures_shape. intros Heq.
  apply (f_equal chars) in Heq. rewrite !chars_app in Heq.
  apply (f_equal reverse) in Heq. rewrite !reverse_app in Heq.
  apply (f_equal (λ l, l !! 5%nat)) in Heq.
  rewrite !lookup_app_l in Heq by (cbn; lia).
  discriminate Heq.
Qed.

(** X13. The nine AR6 illustrative pathways of [AR6_IPS] are loaded from
    nine different emissions files, although their model names contain
    [/] and spaces. *)
Theorem ar6_ips_files_are_distinct :
  NoDup ((λ ms, filename_emissions ms.1 ms.2) <$> AR6_IPS).
Proof. apply (@bool_decide_unpack _ (NoDup_dec _)). by vm_compute. Qed.

(** * Properties of [transform_rcmip_to_iamc_variable] *)

Section ReplaceFacts.
Implicit Types (s old new : string) (c : ascii).

Lemma prefix_append old post : String.prefix old (old +:+ post) = true.
Proof.
  induction old as [|a old IH]; [apply prefix_nil|].
  rewrite append_cons. cbn [String.prefix]. by destruct (ascii_dec a a).
Qed.

Lemma occurs_cons old c s : occurs old s → occurs old (String c s).
Proof. intros (pre & post & ->). by exists (String c pre), post. Qed.

Lemma contains_spec old s : contains old s = true ↔ occurs old s.
Proof.
  split.
  - induction s as [|c s IH]; cbn [contains]; rewrite orb_true_iff; intros [Hp|Hin].
    + apply prefix_true in Hp as [post Hp]. by exists "", post.
    + done.
    + apply prefix_true in Hp as [post Hp]. by exists "", post.
    + by apply occurs_cons, IH.
  - intros (pre & post & ->). induction pre as [|c pre IH].
    + rewrite append_nil_l.
      destruct (old +:+ post) as [|c s] eqn:Heq; cbn [contains]; rewrite <- Heq;
        by rewrite prefix_append.
    + rewrite append_cons. cbn [contains]. rewrite IH. apply orb_true_r.
Qed.

Lemma replace_from_absent old new s : ¬ occurs old s → replace_from old new 0 s = s.
Proof.
  induction s as [|c s IH]; [done|]. intros Hno.
  destruct (String.prefix old (String c s)) eqn:Hp.
  - destruct Hno. apply prefix_true in Hp as [post Hp]. by exists "", post.
  - rewrite replace_from_keep by done. f_equal. apply IH.
    intros Hocc. by apply Hno, occurs_cons.
Qed.

Lemma str_replace_absent old new s :
  old ≠ "" → ¬ occurs old s → str_replace old new s = s.
Proof. intros Hold Hno. destruct old; [done|]. by apply replace_from_absent. Qed.

End ReplaceFacts.

(** X14. A variable name in which none of the five substrings to
    replace occurs is returned as it is. *)
Theorem transform_keeps_other_names (v : string) :
  (∀ old new, (old, new) ∈ replacements → ¬ occurs old v) →
  transform_rcmip_to_iamc_variable v = v.
Proof.
  intros Hno. unfold transform_rcmip_to_iamc_variable, replacements. cbn [foldl].
  rewrite (str_replace_absent "F-Gases|" "" v);
    [|done|apply (Hno _ ""); apply list_elem_of_In; cbn; tauto].
  rewrite (str_replace_absent "PFC|" "" v);
    [|done|apply (Hno _ ""); apply list_elem_of_In; cbn; tauto].
  rewrite (str_replace_absent "HFC4310mee" "HFC43-10" v);
    [|done|apply (Hno _ "HFC43-10"); apply list_elem_of_In; cbn; tauto].
  rewrite (str_replace_absent "MAGICC AFOLU" "AFOLU" v);
    [|done|apply (Hno _ "AFOLU"); apply list_elem_of_In; cbn; tauto].
  rewrite (str_replace_absent "MAGICC Fossil and Industrial"
             "Energy and Industrial Processes" v);
    [done|done|apply (Hno _ "Energy and Industrial Processes");
               apply list_elem_of_In; cbn; tauto].
Qed.

Lemma transform_keeps_other_names_witness :
  transform_rcmip_to_iamc_variable "Emissions|CO2|AFOLU" = "Emissions|CO2|AFOLU".
Proof.
  apply transform_keeps_other_names. intros old new Hin.
  apply list_elem_of_In in Hin.
  intros Hocc%contains_spec. revert Hocc.
  destruct Hin as [[= <- <-]|[[= <- <-]|[[= <- <-]|[[= <- <-]|[[= <- <-]|[]]]]]];
    vm_compute; discriminate.
Defined.

(** X15. The grouping stems are dropped whatever follows them: a name
    under [Emissions|F-Gases|], under [Emissions|PFC|] or under
    [Emissions|F-Gases|PFC|] is transformed to what the same name
    directly under [Emissions|] is transformed to. *)
Theorem transform_drops_stems (x : string) :
  transform_rcmip_to_iamc_variable ("Emissions|F-Gases|" +:+ x)
  = transform_rcmip_to_iamc_variable ("Emissions|" +:+ x)
  ∧ transform_rcmip_to_iamc_variable ("Emissions|PFC|" +:+ x)
    = transform_rcmip_to_iamc_variable ("Emissions|" +:+ x)
  ∧ transform_rcmip_to_iamc_variable ("Emissions|F-Gases|PFC|" +:+ x)
    = transform_rcmip_to_iamc_variable ("Emissions|" +:+ x).
Proof.
  assert (∀ y, str_replace "F-Gases|" "" ("Emissions|F-Gases|" +:+ y)
               = str_replace "F-Gases|" "" ("Emissions|" +:+ y)) as Hgases.
  { intros y. unfold str_replace. rewrite !append_cons, !append_nil_l.
    repeat (rewrite replace_from_keep by reflexivity).
    rewrite replace_from_hit by exact (prefix_append "F-Gases|" y).
    cbn [String.length Nat.sub]. rewrite !replace_from_skip. by rewrite append_nil_l. }
  assert (∀ y, str_replace "F-Gases|" "" ("Emissions|PFC|" +:+ y)
               = "Emissions|PFC|" +:+ replace_from "F-Gases|" "" 0 y) as Hkeep.
  { intros y. unfold str_replace. rewrite !append_cons, !append_nil_l.
    by repeat (rewrite replace_from_keep by reflexivity). }
  assert (∀ y, str_replace "F-Gases|" "" ("Emissions|" +:+ y)
               = "Emissions|" +:+ replace_from "F-Gases|" "" 0 y) as Hbase.
  { intros y. unfold str_replace. rewrite !append_cons, !append_nil_l.
    by repeat (rewrite replace_from_keep by reflexivity). }
  assert (∀ y, str_replace "PFC|" "" ("Emissions|PFC|" +:+ y)
               = str_replace "PFC|" "" ("Emissions|" +:+ y)) as Hpfc.
  { intros y. unfold str_replace. rewrite !append_cons, !append_nil_l.
    repeat (rewrite replace_from_keep by reflexivity).
    rewrite replace_from_hit by exact (prefix_append "PFC|" y).
    cbn [String.length Nat.sub]. rewrite !replace_from_skip. by rewrite append_nil_l. }
  assert (transform_rcmip_to_iamc_variable ("Emissions|PFC|" +:+ x)
          = transform_rcmip_to_iamc_variable ("Emissions|" +:+ x)) as Hsecond.
  { unfold transform_rcmip_to_iamc_variable, replacements. cbn [foldl].
    by rewrite Hkeep, Hbase, Hpfc. }
  split_and!.
  - unfold transform_rcmip_to_iamc_variable, replacements. cbn [foldl]. by rewrite Hgases.
  - exact Hsecond.
  - rewrite <- Hsecond.
    unfold transform_rcmip_to_iamc_variable, replacements. cbn [foldl].
    change ("Emissions|F-Gases|PFC|" +:+ x) with ("Emissions|F-Gases|" +:+ "PFC|" +:+ x).
    change ("Emissions|PFC|" +:+ x) with ("Emissions|" +:+ "PFC|" +:+ x).
    by rewrite Hgases.
Qed.

(** * Properties of [assert_frame_equal] *)

Section FrameEqualFacts.
Context {V D Rtol Kw : Type} `{EqDecision V}.
Variable level_not_found : string → exn.
Variable repr_diffs : MultiIndex V → string.
Variable pd_testing_assert_frame_equal :
  Rtol → Kw → DataFrame V D → DataFrame V D → outcome unit.
Implicit Types (res exp : DataFrame V D) (a b : MultiIndex V).

Lemma filter_nil_iff {X} (P : X → Prop) `{∀ x, Decision (P x)} (l : list X) :
  filter P l = [] ↔ ∀ x, x ∈ l → ¬ P x.
Proof.
  split.
  - intros Hnil x Hx HP. by eapply filter_nil_not_elem_of.
  - intros Hno. induction l as [|x l IH]; [done|].
    rewrite filter_cons. destruct (decide (P x)) as [HP|_].
    + destruct (Hno x); [by left|done].
    + apply IH. intros y Hy. apply Hno. by right.
Qed.

Lemma symmetric_difference_empty a b :
  empty (symmetric_difference a b) = true ↔ ∀ c, c ∈ tuples a ↔ c ∈ tuples b.
Proof.
  unfold empty, symmetric_difference. cbn [tuples].
  rewrite bool_decide_eq_true, app_nil, !filter_nil_iff. split.
  - intros [Hab Hba] c. split; intros Hc.
    + destruct (decide (c ∈ tuples b)) as [|Hn]; [done|]. by destruct (Hab c).
    + destruct (decide (c ∈ tuples a)) as [|Hn]; [done|]. by destruct (Hba c).
  - intros Hsame. split; intros c Hc Hn; apply Hn; by apply Hsame.
Qed.


Lemma tuples_pix_unique_level (indf : DataFrame V D) idx_name c :
  c ∈ tuples (pix_unique indf [idx_name]) ↔ c ∈ level_labels indf idx_name.
Proof. unfold pix_unique, level_labels. cbn [tuples]. apply elem_of_remove_dups. Qed.

Lemma unique_levels_agree res exp idx_name :
  empty (symmetric_difference (pix_unique res [idx_name]) (pix_unique exp [idx_name])) = true
  ↔ same_labels res exp idx_name.
Proof.
  rewrite symmetric_difference_empty. unfold same_labels.
  split; intros Hsame c.
  - rewrite <- !tuples_pix_unique_level. apply Hsame.
  - rewrite !tuples_pix_unique_level. apply Hsame.
Qed.

(** The loop goes through exactly when every level it is given is a
    level of both tables with the same labels in both. *)
Lemma check_index_levels_returns res exp idx_names :
  check_index_levels level_not_found repr_diffs res exp idx_names = Return tt
  ↔ ∀ idx_name, idx_name ∈ idx_names →
      idx_name ∈ names (index res) ∧ idx_name ∈ names (index exp)
      ∧ same_labels res exp idx_name.
Proof.
  induction idx_names as [|n rest IH]; cbn [check_index_levels].
  - split; [|done]. intros _ n Hn. by apply elem_of_nil in Hn.
  - unfold unique_level.
    destruct (decide (n ∈ names (index res))) as [Hres|Hres];
      [|split; [done|]; intros Hall; destruct Hres; apply Hall; by left].
    destruct (decide (n ∈ names (index exp))) as [Hexp|Hexp];
      [|split; [done|]; intros Hall; destruct Hexp; apply Hall; by left].
    destruct (empty (symmetric_difference (pix_unique res [n]) (pix_unique exp [n])))
      eqn:Hempty; cbn [negb].
    + apply unique_levels_agree in Hempty. rewrite IH. split.
      * intros Hrest m [->|Hm]%elem_of_cons; [done|by apply Hrest].
      * intros Hall m Hm. apply Hall. by right.
    + split; [done|]. intros Hall.
      assert (same_labels res exp n) as Hsame by (apply Hall; by left).
      apply unique_levels_agree in Hsame. congruence.
Qed.


End FrameEqualFacts.

(** X16. When [assert_frame_equal] returns, every index level of [res]
    is a level of [exp] too and shows the same labels in both tables,
    and the comparison of pandas has returned. *)
Theorem assert_frame_equal_returns_sound {V D Rtol Kw : Type} `{EqDecision V}
    (level_not_found : string → exn) (repr_diffs : MultiIndex V → string)
    (pd_testing_assert_frame_equal : Rtol → Kw → DataFrame V D → DataFrame V D → outcome unit)
    (res exp : DataFrame V D) (rtol : Rtol) (kwargs : Kw) :
  assert_frame_equal level_not_found repr_diffs pd_testing_assert_frame_equal
                     res exp rtol kwargs = Return tt →
  (∀ idx_name, idx_name ∈ names (index res) →
     idx_name ∈ names (index exp) ∧ same_labels res exp idx_name)
  ∧ pd_testing_assert_frame_equal rtol kwargs res exp = Return tt.
Proof.
  unfold assert_frame_equal.
  destruct (check_index_levels level_not_found repr_diffs res exp (names (index res)))
    as [[]|e] eqn:Hloop; [|done].
  intros Hpd. split; [|done]. intros n Hn.
  destruct (proj1 (check_index_levels_returns level_not_found repr_diffs res exp
                     (names (index res))) Hloop n Hn) as (_ & Hexp & Hsame).
  by split.
Qed.

Lemma assert_frame_equal_returns_sound_witness :
  same_labels one_group one_group "model".
Proof.
  apply (assert_frame_equal_returns_sound
           (λ n, ValueError n) show_index (λ (_ _ : unit) _ _, Return tt)
           one_group one_group tt tt).
  - reflexivity.
  - apply list_elem_of_In. left. reflexivity.
Defined.

(** X17. When every index level of [res] is a level of [exp] with the
    same labels in both tables (as when the two tables have the same
    index), the check of the levels raises nothing, and the outcome of
    [assert_frame_equal] is the outcome of the comparison of pandas. *)
Theorem assert_frame_equal_delegates {V D Rtol Kw : Type} `{EqDecision V}
    (level_not_found : string → exn) (repr_diffs : MultiIndex V → string)
    (pd_testing_assert_frame_equal : Rtol → Kw → DataFrame V D → DataFrame V D → outcome unit)
    (res exp : DataFrame V D) (rtol : Rtol) (kwargs : Kw) :
  (∀ idx_name, idx_name ∈ names (index res) →
     idx_name ∈ names (index exp) ∧ same_labels res exp idx_name) →
  assert_frame_equal level_not_found repr_diffs pd_testing_assert_frame_equal
                     res exp rtol kwargs
  = pd_testing_assert_frame_equal rtol kwargs res exp.
Proof.
  intros Hsame. unfold assert_frame_equal.
  rewrite (proj2 (check_index_levels_returns level_not_found repr_diffs res exp
                    (names (index res)))); [done|].
  intros n Hn. destruct (Hsame n Hn). by split_and!.
Qed.

Lemma assert_frame_equal_delegates_witness :
  assert_frame_equal (λ n, ValueError n) show_index
    (λ (_ _ : unit) _ _, Raise (AssertionError "DataFrame are different"))
    two_models two_models tt tt
  = Raise (AssertionError "DataFrame are different").
Proof.
  apply (assert_frame_equal_delegates (λ n, ValueError n) show_index
           (λ (_ _ : unit) _ _, Raise (AssertionError "DataFrame are different"))
           two_models two_models tt tt).
  intros n Hn. split; [exact Hn|]. intros c. reflexivity.
Defined.


